(** * Voice appointment scheduler: call sessions, delegate replies, greeting

    A shallow embedding of the Express server ([src/server.js]) and of the
    delegate wrapper ([services/claude.js]) of the voice appointment
    scheduler, with the properties of its call-session state machine.

    - [JS]      strings as sequences of UTF-16 code units, [trim], the
                regular expressions of the delegate wrapper;
    - [Json]    JSON values and [JSON.parse];
    - [Claude]  [getClaudeResponse]: marker detection and stripping;
    - [Server]  the session store, the HTTP handlers and the event loop
                that interleaves them at their [await] points. *)

From stdpp Require Import strings gmap list.
From Stdlib Require Import NArith Lia.

Set Warnings "-register-all".
Set Default Proof Using "Type".

(** A JavaScript string is a finite sequence of 16-bit code units.  The
    functions below never look at the upper bound, so a code unit is an [N]. *)
Abbreviation jsstring := (list N).

(** ** JavaScript strings *)
Module JS.

Local Open Scope N_scope.

(** A string literal of the source; every literal of the program is ASCII. *)
Fixpoint lit (s : string) : jsstring :=
  match s with
  | EmptyString => []
  | String c s' => Ascii.N_of_ascii c :: lit s'
  end.

(** A literal in which every apostrophe stands for a quotation mark; it
    only serves to write JSON sample texts. *)
Definition quoted (s : string) : jsstring :=
  map (fun c => if c =? 39 then 34 else c) (lit s).

(** [WhiteSpace] and [LineTerminator] of ECMAScript: what the regular
    expression class [\s] matches and what [String.prototype.trim] removes:
    TAB, LF, VT, FF, CR, SP, NBSP, U+1680, U+2000..U+200A, LS, PS, U+202F,
    U+205F, U+3000 and the byte order mark U+FEFF. *)
Definition is_space (c : N) : bool :=
  ((9 <=? c) && (c <=? 13)) || (c =? 32) || (c =? 160) || (c =? 5760)
  || ((8192 <=? c) && (c <=? 8202)) || (c =? 8232) || (c =? 8233)
  || (c =? 8239) || (c =? 8287) || (c =? 12288) || (c =? 65279).

Fixpoint trimStart (s : jsstring) : jsstring :=
  match s with
  | [] => []
  | c :: s' => if is_space c then trimStart s' else s
  end.

Definition trimEnd (s : jsstring) : jsstring := rev (trimStart (rev s)).

(** [s.trim()] *)
Definition trim (s : jsstring) : jsstring := trimEnd (trimStart s).

(** [strip_prefix p s] is what follows [p] when [s] starts with [p]. *)
Fixpoint strip_prefix (p s : jsstring) : option jsstring :=
  match p, s with
  | [], _ => Some s
  | a :: p', b :: s' => if a =? b then strip_prefix p' s' else None
  | _ :: _, [] => None
  end.

Definition startsWith (s p : jsstring) : bool :=
  match strip_prefix p s with
  | Some _ => true
  | None => false
  end.

(** [s.includes(p)] *)
Fixpoint includes (s p : jsstring) : bool :=
  startsWith s p ||
  match s with
  | [] => false
  | _ :: s' => includes s' p
  end.

Definition lbrace : N := 123.
Definition rbrace : N := 125.
Definition newline : N := 10.

(** The lazy tail [[\s\S]*?\}] of the marker expressions: the shortest
    run of arbitrary code units that ends with a closing brace, the brace
    included. *)
Fixpoint until_rbrace (s : jsstring) : option jsstring :=
  match s with
  | [] => None
  | c :: s' => if c =? rbrace then Some [c] else cons c <$> until_rbrace s'
  end.

(** An attempt of [/<marker>\s*(\{[\s\S]*?\})/] at the start of [s]; the
    result is capture group 1.  [\s*] is greedy, and giving a space back never
    helps since the next atom is a brace. *)
Definition marker_at (marker s : jsstring) : option jsstring :=
  match strip_prefix marker s with
  | Some r =>
      match trimStart r with
      | c :: r' => if c =? lbrace then cons c <$> until_rbrace r' else None
      | [] => None
      end
  | None => None
  end.

(** [s.match(/<marker>\s*(\{[\s\S]*?\})/)]: the leftmost position where the
    expression matches; [None] is JavaScript's [null], [Some p] is a match
    whose group 1 is [p]. *)
Fixpoint marker_match (marker s : jsstring) : option jsstring :=
  match marker_at marker s with
  | Some p => Some p
  | None =>
      match s with
      | [] => None
      | _ :: s' => marker_match marker s'
      end
  end.

(** [s.replace(/\n<marker>[\s\S]*$/, '')]: everything from the first
    line feed that is directly followed by [marker] is removed; without such
    a place the string is returned as it is. *)
Fixpoint cut_from_line (marker s : jsstring) : jsstring :=
  match s with
  | [] => []
  | c :: s' =>
      if (c =? newline) && startsWith s' marker then []
      else c :: cut_from_line marker s'
  end.

(** *** What the properties speak of *)

Definition no_space (m : jsstring) : Prop := Forall (fun c => is_space c = false) m.
Definition all_space (m : jsstring) : Prop := Forall (fun c => is_space c = true) m.

(** [s] holds a marker: the marker word, white space if any, and a payload
    between braces. *)
Definition has_marker (marker s : jsstring) : Prop :=
  exists pre ws body post,
    s = pre ++ marker ++ ws ++ lbrace :: body ++ rbrace :: post /\ all_space ws.

End JS.

(** ** JSON values and [JSON.parse] *)
Module Json.

Import JS.
Local Open Scope N_scope.

(** A JSON value.  A number keeps its lexeme: its value is a double, which
    no property below looks at.  An object is a finite map from property
    names to values: the order of its properties is not observed. *)
Inductive json :=
| JNull
| JBool (b : bool)
| JNum (lexeme : jsstring)
| JStr (s : jsstring)
| JArr (items : list json)
| JObj (props : gmap jsstring json).

(** *** Lexical analysis *)

Inductive token :=
| TLBrace | TRBrace | TLBracket | TRBracket | TColon | TComma
| TString (s : jsstring)
| TNumber (lexeme : jsstring)
| TKeyword (v : json).

(** The states of the automaton of the JSON number grammar: an optional
    minus sign, then a zero or a digit run without leading zero, then an
    optional fraction (a dot and digits), then an optional exponent (e or E,
    an optional sign, digits). *)
Inductive num_state :=
| NMinus | NZero | NInt | NDot | NFrac | NExp | NExpSign | NExpDigits.

Definition num_accepting (st : num_state) : bool :=
  match st with
  | NZero | NInt | NFrac | NExpDigits => true
  | NMinus | NDot | NExp | NExpSign => false
  end.

Definition is_digit (c : N) : bool := (48 <=? c) && (c <=? 57).
Definition is_exp (c : N) : bool := (c =? 101) || (c =? 69).
Definition is_sign (c : N) : bool := (c =? 43) || (c =? 45).
Definition is_dot (c : N) : bool := c =? 46.

Definition num_step (st : num_state) (c : N) : option num_state :=
  match st with
  | NMinus => if c =? 48 then Some NZero else if is_digit c then Some NInt else None
  | NZero => if is_dot c then Some NDot else if is_exp c then Some NExp else None
  | NInt =>
      if is_digit c then Some NInt
      else if is_dot c then Some NDot
      else if is_exp c then Some NExp else None
  | NDot => if is_digit c then Some NFrac else None
  | NFrac => if is_digit c then Some NFrac else if is_exp c then Some NExp else None
  | NExp =>
      if is_digit c then Some NExpDigits
      else if is_sign c then Some NExpSign else None
  | NExpSign => if is_digit c then Some NExpDigits else None
  | NExpDigits => if is_digit c then Some NExpDigits else None
  end.

(** The value of a hexadecimal digit. *)
Definition hex_value (c : N) : option N :=
  if is_digit c then Some (c - 48)
  else if (97 <=? c) && (c <=? 102) then Some (c - 87)
  else if (65 <=? c) && (c <=? 70) then Some (c - 55)
  else None.

(** The character an escape letter stands for ([u] apart). *)
Definition escape_value (c : N) : option N :=
  if c =? 34 then Some 34          (* quotation mark *)
  else if c =? 92 then Some 92     (* backslash *)
  else if c =? 47 then Some 47     (* solidus *)
  else if c =? 98 then Some 8      (* backspace *)
  else if c =? 102 then Some 12    (* form feed *)
  else if c =? 110 then Some 10    (* line feed *)
  else if c =? 114 then Some 13    (* carriage return *)
  else if c =? 116 then Some 9     (* tab *)
  else None.

(** JSON white space: space, TAB, LF, CR. *)
Definition is_json_space (c : N) : bool :=
  (c =? 32) || (c =? 9) || (c =? 10) || (c =? 13).

(** Where the lexer is; accumulators are kept reversed. *)
Inductive mode :=
| MDefault
| MString (acc : jsstring)
| MEscape (acc : jsstring)
| MUnicode (acc : jsstring) (missing : nat) (v : N)
| MNumber (st : num_state) (acc : jsstring)
| MKeyword (rest : jsstring) (v : json).

Definition default_step (c : N) : option (mode * list token) :=
  if is_json_space c then Some (MDefault, [])
  else if c =? 123 then Some (MDefault, [TLBrace])
  else if c =? 125 then Some (MDefault, [TRBrace])
  else if c =? 91 then Some (MDefault, [TLBracket])
  else if c =? 93 then Some (MDefault, [TRBracket])
  else if c =? 58 then Some (MDefault, [TColon])
  else if c =? 44 then Some (MDefault, [TComma])
  else if c =? 34 then Some (MString [], [])
  else if c =? 45 then Some (MNumber NMinus [c], [])
  else if c =? 48 then Some (MNumber NZero [c], [])
  else if is_digit c then Some (MNumber NInt [c], [])
  else if c =? 116 then Some (MKeyword (lit "rue") (JBool true), [])
  else if c =? 102 then Some (MKeyword (lit "alse") (JBool false), [])
  else if c =? 110 then Some (MKeyword (lit "ull") JNull, [])
  else None.

Definition lex_step (m : mode) (c : N) : option (mode * list token) :=
  match m with
  | MDefault => default_step c
  | MString acc =>
      if c =? 34 then Some (MDefault, [TString (rev acc)])
      else if c =? 92 then Some (MEscape acc, [])
      else if c <? 32 then None
      else Some (MString (c :: acc), [])
  | MEscape acc =>
      if c =? 117 then Some (MUnicode acc 4 0, [])
      else match escape_value c with
           | Some x => Some (MString (x :: acc), [])
           | None => None
           end
  | MUnicode acc missing v =>
      match hex_value c with
      | Some d =>
          match missing with
          | 1%nat => Some (MString (v * 16 + d :: acc), [])
          | S k => Some (MUnicode acc k (v * 16 + d), [])
          | O => None
          end
      | None => None
      end
  | MNumber st acc =>
      match num_step st c with
      | Some st' => Some (MNumber st' (c :: acc), [])
      | None =>
          if num_accepting st then
            match default_step c with
            | Some (m', ts) => Some (m', TNumber (rev acc) :: ts)
            | None => None
            end
          else None
      end
  | MKeyword rest v =>
      match rest with
      | [] => None
      | [x] => if c =? x then Some (MDefault, [TKeyword v]) else None
      | x :: rest' => if c =? x then Some (MKeyword rest' v, []) else None
      end
  end.

Fixpoint lex_from (m : mode) (s : jsstring) : option (list token) :=
  match s with
  | [] =>
      match m with
      | MDefault => Some []
      | MNumber st acc => if num_accepting st then Some [TNumber (rev acc)] else None
      | _ => None
      end
  | c :: s' =>
      match lex_step m c with
      | Some (m', ts) => app ts <$> lex_from m' s'
      | None => None
      end
  end.

Definition lex (s : jsstring) : option (list token) := lex_from MDefault s.

(** *** Syntax analysis: a pushdown automaton over the tokens *)

(** A container under construction: an array with its elements so far
    (reversed), an object with its members so far, or an object whose next
    member has its name and waits for its value. *)
Inductive frame :=
| FArr (acc : list json)
| FObj (acc : gmap jsstring json)
| FMember (acc : gmap jsstring json) (k : jsstring).

(** What may come next. *)
Inductive expect :=
| EValue       (* a value: at the start, after a colon, after a comma of an array *)
| EArrFirst    (* after an opening bracket: a value or the closing bracket *)
| EArrNext     (* after an element: a comma or the closing bracket *)
| EObjFirst    (* after an opening brace: a name or the closing brace *)
| EObjName     (* after a comma of an object: a name *)
| EColon (k : jsstring)
| EObjNext     (* after a member: a comma or the closing brace *)
| EDone (v : json).

(** A value is complete: it is the text's value, an element of the array
    on top of the stack or the value of the pending member.  A member whose
    name is already there replaces the earlier one. *)
Definition reduce (v : json) (stack : list frame) : option (expect * list frame) :=
  match stack with
  | [] => Some (EDone v, [])
  | FArr acc :: st => Some (EArrNext, FArr (v :: acc) :: st)
  | FMember acc k :: st => Some (EObjNext, FObj (<[k := v]> acc) :: st)
  | FObj _ :: _ => None
  end.

Definition start_value (t : token) (stack : list frame) : option (expect * list frame) :=
  match t with
  | TString s => reduce (JStr s) stack
  | TNumber l => reduce (JNum l) stack
  | TKeyword v => reduce v stack
  | TLBrace => Some (EObjFirst, FObj ∅ :: stack)
  | TLBracket => Some (EArrFirst, FArr [] :: stack)
  | _ => None
  end.

Definition close_array (stack : list frame) : option (expect * list frame) :=
  match stack with
  | FArr acc :: st => reduce (JArr (rev acc)) st
  | _ => None
  end.

Definition close_object (stack : list frame) : option (expect * list frame) :=
  match stack with
  | FObj acc :: st => reduce (JObj acc) st
  | _ => None
  end.

Definition parse_step (e : expect) (stack : list frame) (t : token)
  : option (expect * list frame) :=
  match e, t with
  | EValue, _ => start_value t stack
  | EArrFirst, TRBracket => close_array stack
  | EArrFirst, _ => start_value t stack
  | EArrNext, TComma => Some (EValue, stack)
  | EArrNext, TRBracket => close_array stack
  | EObjFirst, TString k => Some (EColon k, stack)
  | EObjFirst, TRBrace => close_object stack
  | EObjName, TString k => Some (EColon k, stack)
  | EColon k, TColon =>
      match stack with
      | FObj acc :: st => Some (EValue, FMember acc k :: st)
      | _ => None
      end
  | EObjNext, TComma => Some (EObjName, stack)
  | EObjNext, TRBrace => close_object stack
  | _, _ => None
  end.

Fixpoint parse_from (e : expect) (stack : list frame) (ts : list token) : option json :=
  match ts with
  | [] =>
      match e, stack with
      | EDone v, [] => Some v
      | _, _ => None
      end
  | t :: ts' =>
      match parse_step e stack t with
      | Some (e', stack') => parse_from e' stack' ts'
      | None => None
      end
  end.

(** [JSON.parse(s)]; [None] is a [SyntaxError]. *)
Definition parse (s : jsstring) : option json :=
  match lex s with
  | Some ts => parse_from EValue [] ts
  | None => None
  end.

(** The decimal digits of an array index. *)
Fixpoint uint_digits (d : Decimal.uint) : jsstring :=
  match d with
  | Decimal.Nil => []
  | Decimal.D0 d => 48 :: uint_digits d
  | Decimal.D1 d => 49 :: uint_digits d
  | Decimal.D2 d => 50 :: uint_digits d
  | Decimal.D3 d => 51 :: uint_digits d
  | Decimal.D4 d => 52 :: uint_digits d
  | Decimal.D5 d => 53 :: uint_digits d
  | Decimal.D6 d => 54 :: uint_digits d
  | Decimal.D7 d => 55 :: uint_digits d
  | Decimal.D8 d => 56 :: uint_digits d
  | Decimal.D9 d => 57 :: uint_digits d
  end.

Definition index_name (i : nat) : jsstring := uint_digits (Nat.to_uint i).

Fixpoint indexed {A} (f : A -> json) (i : nat) (l : list A) : gmap jsstring json :=
  match l with
  | [] => ∅
  | x :: l' => <[index_name i := f x]> (indexed f (S i) l')
  end.

(** The own enumerable properties that an object spread [{...v}] copies:
    the members of an object, the elements of an array and the code units of
    a string under their indices, nothing for the other values. *)
Definition own_props (v : json) : gmap jsstring json :=
  match v with
  | JObj props => props
  | JArr items => indexed id 0 items
  | JStr s => indexed (fun c => JStr [c]) 0 s
  | JNull | JBool _ | JNum _ => ∅
  end.

End Json.

(** ** The delegate wrapper, [services/claude.js] *)
Module Claude.

Import JS Json.

(** What [await anthropic.messages.create(...)] gives: a rejected promise
    (network or backend error, or a message without a first text block, on
    which [message.content[0].text] throws) or the text of the message. *)
Inductive ApiResult :=
| ApiError
| ApiMessage (text : jsstring).

(** The object [{ response, isComplete, appointmentResult }]. *)
Record Reply := {
  response : jsstring;
  isComplete : bool;
  appointmentResult : option (gmap jsstring json)
}.

Definition CONFIRMED : jsstring := lit "APPOINTMENT_CONFIRMED:".
Definition FAILED : jsstring := lit "APPOINTMENT_FAILED:".

(** The body of [getClaudeResponse] after the [await], on the text of the
    message.  [{ confirmed: b, ...data }] is the union in which the
    properties of [data] win. *)
Definition parseReply (text : jsstring) : Reply :=
  let fullText := trim text in
  let confirmedMatch := marker_match CONFIRMED fullText in
  let failedMatch := marker_match FAILED fullText in
  match confirmedMatch with
  | Some payload =>
      {| isComplete := true;
         appointmentResult :=
           Some match Json.parse payload with
                | Some data => own_props data ∪ {[ lit "confirmed" := JBool true ]}
                | None => {[ lit "confirmed" := JBool true; lit "raw" := JStr payload ]}
                end;
         response := trim (cut_from_line CONFIRMED fullText) |}
  | None =>
      match failedMatch with
      | Some payload =>
          {| isComplete := true;
             appointmentResult :=
               Some match Json.parse payload with
                    | Some data => own_props data ∪ {[ lit "confirmed" := JBool false ]}
                    | None => {[ lit "confirmed" := JBool false; lit "raw" := JStr payload ]}
                    end;
             response := trim (cut_from_line FAILED fullText) |}
      | None =>
          {| isComplete := false; appointmentResult := None; response := fullText |}
      end
  end.

(** [getClaudeResponse(systemPrompt, messages)], as a function of what the
    API call gives; [None] is a thrown error.  The system prompt and the
    messages only travel to the API. *)
Definition getClaudeResponse (api : ApiResult) : option Reply :=
  match api with
  | ApiError => None
  | ApiMessage text => Some (parseReply text)
  end.

End Claude.

(** ** The server, [src/server.js] *)
Module Server.

Import JS Json.
Local Open Scope N_scope.

(** *** Values that come from outside *)

(** A field of a request body or of [process.env]: [undefined] or a
    string. *)
Definition truthy (v : option jsstring) : bool :=
  match v with
  | Some (_ :: _) => true
  | Some [] | None => false
  end.

(** The string a template literal puts in for [${v}]. *)
Definition to_string (v : option jsstring) : jsstring :=
  match v with
  | Some s => s
  | None => lit "undefined"
  end.

(** [v || d] for a string [d]. *)
Definition or_else (v : option jsstring) (d : jsstring) : jsstring :=
  if truthy v then to_string v else d.

Record Env := {
  BASE_URL : option jsstring;
  TWILIO_PHONE_NUMBER : option jsstring
}.

(** The body of [POST /api/call]. *)
Record CallBody := {
  body_hairdresserPhone : option jsstring;
  body_hairdresserName : option jsstring;
  body_customerName : option jsstring;
  body_service : option jsstring;
  body_preferredDate : option jsstring;
  body_preferredTime : option jsstring
}.

(** The body of a Twilio webhook. *)
Record VoiceBody := {
  CallSid : option jsstring;
  SpeechResult : option jsstring;
  CallStatus : option jsstring
}.

(** The argument of [twilioClient.calls.create]. *)
Record CallParams := {
  to : jsstring;
  from : option jsstring;
  url : jsstring;
  statusCallback : jsstring;
  statusCallbackMethod : jsstring;
  statusCallbackEvent : list jsstring
}.

(** What [await twilioClient.calls.create(...)] gives: the call with its
    [sid], or a rejection with the error's message. *)
Inductive CarrierResult :=
| CallCreated (sid : jsstring)
| CallRejected (message : jsstring).

(** *** Sessions *)

Record Turn := { role : jsstring; content : jsstring }.

Record UserPreferences := {
  customerName : jsstring;
  hairdresserName : jsstring;
  service : jsstring;
  preferredDate : jsstring;
  preferredTime : jsstring;
  hairdresserPhone : jsstring
}.

Record Session := {
  callSid : jsstring;
  userPreferences : UserPreferences;
  initialGreeting : jsstring;
  claudeMessages : list Turn;
  transcript : list Turn;
  status : jsstring;
  twilioStatus : option jsstring;
  appointmentResult : option (gmap jsstring json);
  createdAt : N
}.

Definition set_status (v : jsstring) (s : Session) : Session :=
  {| callSid := callSid s; userPreferences := userPreferences s;
     initialGreeting := initialGreeting s; claudeMessages := claudeMessages s;
     transcript := transcript s; status := v; twilioStatus := twilioStatus s;
     appointmentResult := appointmentResult s; createdAt := createdAt s |}.

Definition set_twilioStatus (v : option jsstring) (s : Session) : Session :=
  {| callSid := callSid s; userPreferences := userPreferences s;
     initialGreeting := initialGreeting s; claudeMessages := claudeMessages s;
     transcript := transcript s; status := status s; twilioStatus := v;
     appointmentResult := appointmentResult s; createdAt := createdAt s |}.

Definition set_appointmentResult (v : option (gmap jsstring json)) (s : Session) : Session :=
  {| callSid := callSid s; userPreferences := userPreferences s;
     initialGreeting := initialGreeting s; claudeMessages := claudeMessages s;
     transcript := transcript s; status := status s; twilioStatus := twilioStatus s;
     appointmentResult := v; createdAt := createdAt s |}.

(** [session.claudeMessages.push(t)] *)
Definition push_claudeMessages (t : Turn) (s : Session) : Session :=
  {| callSid := callSid s; userPreferences := userPreferences s;
     initialGreeting := initialGreeting s; claudeMessages := claudeMessages s ++ [t];
     transcript := transcript s; status := status s; twilioStatus := twilioStatus s;
     appointmentResult := appointmentResult s; createdAt := createdAt s |}.

(** [session.transcript.push(t)] *)
Definition push_transcript (t : Turn) (s : Session) : Session :=
  {| callSid := callSid s; userPreferences := userPreferences s;
     initialGreeting := initialGreeting s; claudeMessages := claudeMessages s;
     transcript := transcript s ++ [t]; status := status s; twilioStatus := twilioStatus s;
     appointmentResult := appointmentResult s; createdAt := createdAt s |}.

(** *** Responses *)

(** The options every [twiml.gather] of the server passes. *)
Record GatherOptions := {
  input : jsstring;
  action : jsstring;
  method : jsstring;
  timeout : N;
  speechTimeout : jsstring;
  language : jsstring
}.

(** A TwiML verb; a [Gather] carries the [Say] nested in it. *)
Inductive Verb :=
| Say (voice : option jsstring) (text : jsstring)
| Gather (options : GatherOptions) (voice : jsstring) (prompt : jsstring)
| Redirect (method : jsstring) (url : jsstring)
| Pause (length : N)
| Hangup.

Inductive Body :=
| ErrorJson (error : jsstring)
| CallJson (callSid : jsstring) (status : jsstring)
| PollJson (callSid : jsstring) (status : jsstring) (twilioStatus : option jsstring)
    (transcript : list Turn) (appointmentResult : option (gmap jsstring json))
| Twiml (verbs : list Verb)
| StatusText.

Record Response := { code : N; body : Body }.

(** *** The process state *)

(** A handler suspended at its [await], with what it holds on to: the
    request to the carrier and the body it came from, or the request to the
    delegate, the session object and the base URL read before the call. *)
Inductive Pending :=
| AwaitCarrier (params : CallParams) (body : CallBody)
| AwaitDelegate (messages : list Turn) (session : nat) (baseUrl : option jsstring).

(** [callSessions] maps a call identifier to a session object; session
    objects live in [heap] and are named by their index there, so that a
    suspended handler keeps its object whatever the map says later. *)
Record State := {
  callSessions : gmap jsstring nat;
  heap : list Session;
  inflight : list Pending
}.

Definition initial : State :=
  {| callSessions := ∅; heap := []; inflight := [] |}.

(** [callSessions.get(id)] *)
Definition get (st : State) (id : option jsstring) : option (nat * Session) :=
  match id with
  | Some sid =>
      match callSessions st !! sid with
      | Some l => pair l <$> heap st !! l
      | None => None
      end
  | None => None
  end.

(** [callSessions.set(sid, s)] with a fresh object [s]. *)
Definition set (sid : jsstring) (s : Session) (st : State) : State :=
  {| callSessions := <[sid := List.length (heap st)]> (callSessions st);
     heap := heap st ++ [s];
     inflight := inflight st |}.

(** An assignment to fields of the session object [l]. *)
Definition mutate (l : nat) (f : Session -> Session) (st : State) : State :=
  {| callSessions := callSessions st;
     heap := alter f l (heap st);
     inflight := inflight st |}.

Definition suspend (p : Pending) (st : State) : State :=
  {| callSessions := callSessions st; heap := heap st;
     inflight := inflight st ++ [p] |}.

Definition resume (i : nat) (st : State) : State :=
  {| callSessions := callSessions st; heap := heap st;
     inflight := delete i (inflight st) |}.

(** *** Helpers *)

Definition buildInitialGreeting (customerName hairdresserName service : jsstring)
    (preferredDate preferredTime : option jsstring) : jsstring :=
  let greeting :=
    lit "Hello! I'm calling on behalf of " ++ customerName
    ++ lit " to schedule a " ++ service ++ lit " appointment." in
  let greeting :=
    if truthy preferredDate && truthy preferredTime then
      greeting ++ lit " They were hoping to come in on " ++ to_string preferredDate
      ++ lit " around " ++ to_string preferredTime ++ lit "."
    else if truthy preferredDate then
      greeting ++ lit " They were hoping to come in on " ++ to_string preferredDate ++ lit "."
    else if truthy preferredTime then
      greeting ++ lit " They were hoping to come in around " ++ to_string preferredTime ++ lit "."
    else
      greeting ++ lit " They are flexible on timing and are looking for the next available slot." in
  greeting ++ lit " Is that something you can help me with?".

Definition gather_options (baseUrl : option jsstring) : GatherOptions :=
  {| input := lit "speech";
     action := to_string baseUrl ++ lit "/voice/gather";
     method := lit "POST";
     timeout := 10;
     speechTimeout := lit "auto";
     language := lit "en-US" |}.

Definition alice : jsstring := lit "alice".

Definition xml (verbs : list Verb) : Response := {| code := 200; body := Twiml verbs |}.

(** The answer of the voice webhooks to an unknown call. *)
Definition unknown_call : Response :=
  xml [Say None (lit "Sorry, an error occurred. Goodbye."); Hangup].

(** *** What each handler does to the session object *)

Definition user_turn (text : jsstring) : Turn := {| role := lit "user"; content := text |}.
Definition assistant_turn (text : jsstring) : Turn :=
  {| role := lit "assistant"; content := text |}.

(** [/voice/start]: [session.status = 'in-progress'] *)
Definition answered (s : Session) : Session := set_status (lit "in-progress") s.

(** [/voice/gather], before the [await]: the speech goes to both logs. *)
Definition heard (speechResult : jsstring) (s : Session) : Session :=
  push_transcript (user_turn speechResult) (push_claudeMessages (user_turn speechResult) s).

(** [/voice/gather], after the [await], in the [try] block. *)
Definition replied (r : Claude.Reply) (s : Session) : Session :=
  let s := push_claudeMessages (assistant_turn (Claude.response r)) s in
  let s := push_transcript (assistant_turn (Claude.response r)) s in
  if Claude.isComplete r then
    set_appointmentResult (Claude.appointmentResult r) (set_status (lit "completed") s)
  else s.

Definition apology : jsstring :=
  lit "I apologize, I encountered a technical issue. I will have the customer reach out directly. Thank you and goodbye.".

(** [/voice/gather], the [catch] block. *)
Definition delegate_failed (s : Session) : Session :=
  let s := set_status (lit "failed") s in
  let s :=
    set_appointmentResult
      (Some {[ lit "confirmed" := JBool false;
               lit "reason" := JStr (lit "Technical error during call") ]}) s in
  push_transcript (assistant_turn apology) s.

(** [/voice/no-input] *)
Definition no_input (s : Session) : Session :=
  if bool_decide (status s ≠ lit "completed") then
    set_appointmentResult
      (Some {[ lit "confirmed" := JBool false;
               lit "reason" := JStr (lit "No response from salon") ]})
      (set_status (lit "no-answer") s)
  else s.

Definition carrier_failures : list jsstring :=
  [lit "failed"; lit "busy"; lit "no-answer"; lit "canceled"].

(** [/voice/status] *)
Definition status_callback (callStatus : option jsstring) (s : Session) : Session :=
  let s := set_twilioStatus callStatus s in
  match callStatus with
  | Some cs =>
      if bool_decide (cs ∈ carrier_failures) then
        if bool_decide (status s ≠ lit "completed") then
          let s := set_status (if bool_decide (cs = lit "busy") then lit "busy" else cs) s in
          match appointmentResult s with
          | None =>
              set_appointmentResult
                (Some {[ lit "confirmed" := JBool false;
                         lit "reason" := JStr (lit "Call " ++ cs) ]}) s
          | Some _ => s
          end
        else s
      else s
  | None => s
  end.

(** *** The handlers *)

(** A handler either answers or suspends at an [await]. *)
Inductive Outcome :=
| Respond (r : Response)
| Suspend (p : Pending).

(** [POST /api/call] up to [await twilioClient.calls.create]; it reads and
    writes no session. *)
Definition api_call (env : Env) (b : CallBody) : Outcome :=
  if negb (truthy (body_hairdresserPhone b)) || negb (truthy (body_customerName b))
     || negb (truthy (body_service b)) then
    Respond {| code := 400;
               body := ErrorJson (lit "Missing required fields: hairdresserPhone, customerName, service") |}
  else if negb (truthy (BASE_URL env)) then
    Respond {| code := 500;
               body := ErrorJson (lit "BASE_URL is not configured. Set it in your .env file to your public server URL (e.g. from ngrok).") |}
  else
    Suspend (AwaitCarrier
      {| to := to_string (body_hairdresserPhone b);
         from := TWILIO_PHONE_NUMBER env;
         url := to_string (BASE_URL env) ++ lit "/voice/start";
         statusCallback := to_string (BASE_URL env) ++ lit "/voice/status";
         statusCallbackMethod := lit "POST";
         statusCallbackEvent :=
           [lit "initiated"; lit "ringing"; lit "answered"; lit "completed"] |} b).

(** The session [POST /api/call] stores for the call [sid]. *)
Definition new_session (b : CallBody) (sid : jsstring) (now : N) : Session :=
  let initialGreeting :=
    buildInitialGreeting (to_string (body_customerName b))
      (or_else (body_hairdresserName b) (lit "the salon"))
      (to_string (body_service b)) (body_preferredDate b) (body_preferredTime b) in
  {| callSid := sid;
     userPreferences :=
       {| customerName := to_string (body_customerName b);
          hairdresserName := or_else (body_hairdresserName b) (lit "the salon");
          service := to_string (body_service b);
          preferredDate := or_else (body_preferredDate b) [];
          preferredTime := or_else (body_preferredTime b) [];
          hairdresserPhone := to_string (body_hairdresserPhone b) |};
     initialGreeting := initialGreeting;
     claudeMessages := [];
     transcript := [assistant_turn initialGreeting];
     status := lit "calling";
     twilioStatus := Some (lit "queued");
     appointmentResult := None;
     createdAt := now |}.

(** [POST /api/call] from the [await] on; a rejection lands in [catch]. *)
Definition api_call_resume (b : CallBody) (r : CarrierResult) (now : N) (st : State)
  : Response * State :=
  match r with
  | CallCreated sid =>
      ({| code := 200; body := CallJson sid (lit "calling") |},
       set sid (new_session b sid now) st)
  | CallRejected message => ({| code := 500; body := ErrorJson message |}, st)
  end.

(** [GET /api/call/:callSid] *)
Definition get_call (sid : jsstring) (st : State) : Response :=
  match get st (Some sid) with
  | Some (_, session) =>
      {| code := 200;
         body := PollJson (callSid session) (status session) (twilioStatus session)
                   (transcript session) (appointmentResult session) |}
  | None => {| code := 404; body := ErrorJson (lit "Call not found") |}
  end.

Definition keep_listening (baseUrl : option jsstring) (text : jsstring) : list Verb :=
  [Gather (gather_options baseUrl) alice text;
   Redirect (lit "POST") (to_string baseUrl ++ lit "/voice/no-input")].

(** [POST /voice/start] *)
Definition voice_start (env : Env) (b : VoiceBody) (st : State) : Response * State :=
  match get st (CallSid b) with
  | None => (unknown_call, st)
  | Some (l, session) =>
      (xml (keep_listening (BASE_URL env) (initialGreeting session)),
       mutate l answered st)
  end.

(** [POST /voice/gather] up to [await getClaudeResponse]. *)
Definition voice_gather (env : Env) (b : VoiceBody) (st : State) : Outcome * State :=
  let speechResult := or_else (SpeechResult b) [] in
  match get st (CallSid b) with
  | None => (Respond unknown_call, st)
  | Some (l, session) =>
      (Suspend (AwaitDelegate (claudeMessages (heard speechResult session)) l (BASE_URL env)),
       mutate l (heard speechResult) st)
  end.

(** [POST /voice/gather] from the [await] on, for the session object [l]. *)
Definition voice_gather_resume (l : nat) (baseUrl : option jsstring) (r : Claude.ApiResult)
    (st : State) : Response * State :=
  match Claude.getClaudeResponse r with
  | Some reply =>
      (xml (if Claude.isComplete reply
            then [Say (Some alice) (Claude.response reply); Pause 1; Hangup]
            else keep_listening baseUrl (Claude.response reply)),
       mutate l (replied reply) st)
  | None =>
      (xml [Say (Some alice) apology; Hangup], mutate l delegate_failed st)
  end.

Definition reprompt : jsstring :=
  lit "I'm sorry, I didn't catch that. Are you able to help me schedule an appointment?".
Definition goodbye : jsstring :=
  lit "I didn't receive a response. I'll have the customer follow up directly. Goodbye.".

(** [POST /voice/no-input] *)
Definition voice_no_input (env : Env) (b : VoiceBody) (st : State) : Response * State :=
  let twiml :=
    [Gather (gather_options (BASE_URL env)) alice reprompt;
     Say (Some alice) goodbye;
     Hangup] in
  match get st (CallSid b) with
  | Some (l, _) => (xml twiml, mutate l no_input st)
  | None => (xml twiml, st)
  end.

(** [POST /voice/status] *)
Definition voice_status (b : VoiceBody) (st : State) : Response * State :=
  ({| code := 200; body := StatusText |},
   match get st (CallSid b) with
   | Some (l, _) => mutate l (status_callback (CallStatus b)) st
   | None => st
   end).

(** *** The event loop *)

(** What the process reacts to: a request, or the settling of a promise
    some suspended handler waits for ([i] is its place in [inflight]). *)
Inductive Event :=
| PostApiCall (b : CallBody)
| CarrierSettles (i : nat) (r : CarrierResult) (now : N)
| GetApiCall (sid : jsstring)
| PostVoiceStart (b : VoiceBody)
| PostVoiceGather (b : VoiceBody)
| DelegateSettles (i : nat) (r : Claude.ApiResult)
| PostVoiceNoInput (b : VoiceBody)
| PostVoiceStatus (b : VoiceBody).

(** One turn of the event loop: the response sent in it, if any, and the
    next state.  A settling that no suspended handler waits for does not
    happen: it leaves the state as it is. *)
Definition step (env : Env) (st : State) (ev : Event) : option Response * State :=
  match ev with
  | PostApiCall b =>
      match api_call env b with
      | Respond r => (Some r, st)
      | Suspend p => (None, suspend p st)
      end
  | CarrierSettles i r now =>
      match inflight st !! i with
      | Some (AwaitCarrier _ b) =>
          let '(resp, st') := api_call_resume b r now (resume i st) in (Some resp, st')
      | _ => (None, st)
      end
  | GetApiCall sid => (Some (get_call sid st), st)
  | PostVoiceStart b => let '(resp, st') := voice_start env b st in (Some resp, st')
  | PostVoiceGather b =>
      match voice_gather env b st with
      | (Respond r, st') => (Some r, st')
      | (Suspend p, st') => (None, suspend p st')
      end
  | DelegateSettles i r =>
      match inflight st !! i with
      | Some (AwaitDelegate _ l baseUrl) =>
          let '(resp, st') := voice_gather_resume l baseUrl r (resume i st) in (Some resp, st')
      | _ => (None, st)
      end
  | PostVoiceNoInput b => let '(resp, st') := voice_no_input env b st in (Some resp, st')
  | PostVoiceStatus b => let '(resp, st') := voice_status b st in (Some resp, st')
  end.

(** The state after a sequence of events. *)
Definition run (env : Env) (st : State) (evs : list Event) : State :=
  foldl (fun st ev => (step env st ev).2) st evs.

(** The statuses after which the client stops polling ([TERMINAL_STATUSES]
    of the page script). *)
Definition TERMINAL_STATUSES : list jsstring :=
  [lit "completed"; lit "failed"; lit "no-answer"; lit "busy"; lit "canceled"].

(** *** What the properties speak of *)

Definition terminal (status : jsstring) : Prop := status ∈ TERMINAL_STATUSES.

(** What one turn of the event loop may do to a session object: nothing,
    or the assignments of the handler the event runs. *)
Inductive touches : Event -> Session -> Session -> Prop :=
| touches_not ev s : touches ev s s
| touches_answered b s : touches (PostVoiceStart b) s (answered s)
| touches_heard b s : touches (PostVoiceGather b) s (heard (or_else (SpeechResult b) []) s)
| touches_replied i text s :
    touches (DelegateSettles i (Claude.ApiMessage text)) s (replied (Claude.parseReply text) s)
| touches_failed i s : touches (DelegateSettles i Claude.ApiError) s (delegate_failed s)
| touches_no_input b s : touches (PostVoiceNoInput b) s (no_input s)
| touches_status b s : touches (PostVoiceStatus b) s (status_callback (CallStatus b) s).

(** The three fields [POST /api/call] asks for are there. *)
Definition required_fields (b : CallBody) : bool :=
  truthy (body_hairdresserPhone b) && truthy (body_customerName b) && truthy (body_service b).

(** The session stored for a call identifier. *)
Definition session_of (st : State) (sid : jsstring) : option Session :=
  snd <$> get st (Some sid).

(** The events that end or continue a conversation on the delegate's word,
    and the answer webhook: the only ones that write to a completed
    session. *)
Definition conversational (ev : Event) : bool :=
  match ev with
  | PostVoiceStart _ | DelegateSettles _ _ => true
  | _ => false
  end.

Definition is_voice_start (ev : Event) : bool :=
  match ev with
  | PostVoiceStart _ => true
  | _ => false
  end.

(** The parts of the greeting that do not depend on the preferences. *)
Definition purpose (customerName service : jsstring) : jsstring :=
  lit "Hello! I'm calling on behalf of " ++ customerName
  ++ lit " to schedule a " ++ service ++ lit " appointment.".
Definition flexible : jsstring :=
  lit " They are flexible on timing and are looking for the next available slot.".
Definition closing : jsstring := lit " Is that something you can help me with?".

(** The number of [Gather] verbs of a TwiML document: how often the carrier
    is told to listen. *)
Definition is_gather (v : Verb) : bool :=
  match v with
  | Gather _ _ _ => true
  | _ => false
  end.

Definition gathers (verbs : list Verb) : nat := length (List.filter is_gather verbs).

End Server.

(** ** Sample replies, requests and calls *)
Module Samples.

Import JS Json Server.
Local Open Scope N_scope.

(** A reply whose marker follows the sentence on the same line. *)
Definition inline_marker_text : jsstring :=
  quoted "Great, see you on Friday! APPOINTMENT_CONFIRMED: {'date':'Friday'}".

(** Replies whose payload is not JSON. *)
Definition malformed_confirmed_text : jsstring :=
  lit "Wonderful, thank you!" ++ newline :: lit "APPOINTMENT_CONFIRMED: {date: Friday}".
Definition malformed_failed_text : jsstring :=
  lit "I understand, goodbye." ++ newline :: lit "APPOINTMENT_FAILED: {fully booked}".

(** A reply with both markers, and a payload that has a member [confirmed]
    of its own. *)
Definition self_denying_text : jsstring :=
  lit "Thank you, goodbye!" ++ newline ::
  quoted "APPOINTMENT_CONFIRMED: {'confirmed': false, 'date': 'Friday'}" ++ newline ::
  quoted "APPOINTMENT_FAILED: {'reason': 'fully booked'}".

(** A reply with both markers. *)
Definition both_markers_text : jsstring :=
  lit "See you on Friday!" ++ newline ::
  quoted "APPOINTMENT_CONFIRMED: {'date': 'Friday', 'time': '3pm'}" ++ newline ::
  quoted "APPOINTMENT_FAILED: {'reason': 'fully booked'}".

Definition env0 : Env :=
  {| BASE_URL := Some (lit "https://scheduler.example");
     TWILIO_PHONE_NUMBER := Some (lit "+15550100") |}.

Definition alex : CallBody :=
  {| body_hairdresserPhone := Some (lit "+15550123");
     body_hairdresserName := None;
     body_customerName := Some (lit "Alex");
     body_service := Some (lit "haircut");
     body_preferredDate := Some [];
     body_preferredTime := Some [] |}.

Definition blake : CallBody :=
  {| body_hairdresserPhone := Some (lit "+15550188");
     body_hairdresserName := Some (lit "Studio B");
     body_customerName := Some (lit "Blake");
     body_service := Some (lit "colour");
     body_preferredDate := Some (lit "Friday");
     body_preferredTime := Some (lit "3pm") |}.

Definition webhook (sid : string) : VoiceBody :=
  {| CallSid := Some (lit sid); SpeechResult := None; CallStatus := None |}.
Definition speech (sid text : string) : VoiceBody :=
  {| CallSid := Some (lit sid); SpeechResult := Some (lit text); CallStatus := None |}.
Definition lifecycle (sid callStatus : string) : VoiceBody :=
  {| CallSid := Some (lit sid); SpeechResult := None; CallStatus := Some (lit callStatus) |}.

(** A call to Alex's salon that was placed and answered. *)
Definition answered_call : State :=
  run env0 initial
    [PostApiCall alex; CarrierSettles 0 (CallCreated (lit "CA1")) 7;
     PostVoiceStart (webhook "CA1")].

(** The salon stays silent after the greeting. *)
Definition silent_call : State := run env0 answered_call [PostVoiceNoInput (webhook "CA1")].

Definition confirmation : jsstring :=
  lit "Perfect, see you on Friday at 3pm. Goodbye!" ++ newline ::
  quoted "APPOINTMENT_CONFIRMED: {'date': 'Friday', 'time': '3pm'}".

(** The salon speaks and the delegate confirms the appointment. *)
Definition confirm : list Event :=
  [PostVoiceGather (speech "CA1" "Friday at three works.");
   DelegateSettles 0 (Claude.ApiMessage confirmation)].

Definition completed_call : State := run env0 answered_call confirm.

(** The carrier reports the line busy. *)
Definition busy_call : State :=
  run env0 initial
    [PostApiCall alex; CarrierSettles 0 (CallCreated (lit "CA1")) 7;
     PostVoiceStatus (lifecycle "CA1" "busy")].

Definition nameless : CallBody :=
  {| body_hairdresserPhone := Some (lit "+15550123");
     body_hairdresserName := None;
     body_customerName := None;
     body_service := Some (lit "haircut");
     body_preferredDate := None;
     body_preferredTime := None |}.

Definition no_base_url : Env :=
  {| BASE_URL := None; TWILIO_PHONE_NUMBER := Some (lit "+15550100") |}.

End Samples.

(** ** The instructions for the delegate, [services/claude.js] *)
Module Prompt.

Import JS Server.
Local Open Scope N_scope.

Definition dq : jsstring := [34].
Definition nl : jsstring := [newline].

(** [v || 'flexible'] *)
Definition or_flexible (v : jsstring) : jsstring :=
  match v with
  | [] => lit "flexible"
  | _ :: _ => v
  end.

(** [createSystemPrompt(userPreferences, initialGreeting)]: the template
    literal, piece by piece; [8212] is the dash of the source text. *)
Definition createSystemPrompt (prefs : UserPreferences) (initialGreeting : jsstring) : jsstring :=
  concat
    [lit "You are a polite, efficient AI phone assistant calling a hair salon on behalf of "; customerName prefs; lit " to schedule a "; service prefs; lit " appointment."; nl;
     nl;
     lit "You have already started the call with this opening line:"; nl;
     dq; initialGreeting; dq; nl;
     nl;
     lit "Now you must continue the conversation based on the salon's responses."; nl;
     nl;
     lit "CUSTOMER DETAILS:"; nl;
     lit "- Customer name: "; customerName prefs; nl;
     lit "- Service requested: "; service prefs; nl;
     lit "- Preferred date: "; or_flexible (preferredDate prefs); nl;
     lit "- Preferred time: "; or_flexible (preferredTime prefs); nl;
     lit "- Salon/stylist: "; hairdresserName prefs; nl;
     nl;
     lit "CONVERSATION RULES:"; nl;
     lit "- Keep each response to 1-3 natural spoken sentences "; [8212]; lit " this is a phone call, not an email"; nl;
     lit "- Be polite, warm, and professional"; nl;
     lit "- If the preferred time is unavailable, ask what the nearest available slots are and pick the best one"; nl;
     lit "- Once an appointment is confirmed, repeat the key details (date, time, service) and say goodbye"; nl;
     lit "- If the salon cannot accommodate at all, thank them graciously and end the call"; nl;
     lit "- Do NOT reveal you are an AI unless directly and sincerely asked"; nl;
     lit "- Stay focused on scheduling "; [8212]; lit " do not go off-topic"; nl;
     nl;
     lit "ENDING THE CALL:"; nl;
     lit "When the appointment is either confirmed or it's clear one cannot be made, end your response with a structured marker on a new line (the marker will be stripped before being spoken):"; nl;
     nl;
     lit "If confirmed:"; nl;
     lit "APPOINTMENT_CONFIRMED: {"; dq; lit "date"; dq; lit ": "; dq; lit "<date>"; dq; lit ", "; dq; lit "time"; dq; lit ": "; dq; lit "<time>"; dq; lit ", "; dq; lit "service"; dq; lit ": "; dq; lit "<service>"; dq; lit ", "; dq; lit "notes"; dq; lit ": "; dq; lit "<any extra info like stylist name>"; dq; lit "}"; nl;
     nl;
     lit "If not confirmed:"; nl;
     lit "APPOINTMENT_FAILED: {"; dq; lit "reason"; dq; lit ": "; dq; lit "<brief reason e.g. fully booked, wrong service, etc.>"; dq; lit "}"; nl;
     nl;
     lit "Example of a confirmed ending:"; nl;
     dq; lit "Perfect, we have confirmed a "; service prefs; lit " for "; customerName prefs; lit " on Tuesday the 15th at 2 PM. We'll see you then "; [8212]; lit " have a wonderful day! Goodbye!"; dq; nl;
     lit "APPOINTMENT_CONFIRMED: {"; dq; lit "date"; dq; lit ": "; dq; lit "Tuesday the 15th"; dq; lit ", "; dq; lit "time"; dq; lit ": "; dq; lit "2 PM"; dq; lit ", "; dq; lit "service"; dq; lit ": "; dq; service prefs; dq; lit ", "; dq; lit "notes"; dq; lit ": "; dq; dq; lit "}"; nl;
     nl;
     lit "Example of a failed ending:"; nl;
     dq; lit "I understand, thank you so much for checking. I'll let "; customerName prefs; lit " know and they will reach out directly. Have a great day! Goodbye!"; dq; nl;
     lit "APPOINTMENT_FAILED: {"; dq; lit "reason"; dq; lit ": "; dq; lit "No availability on the requested date"; dq; lit "}"].

End Prompt.

(** ** The page script *)
Module Client.

Import JS Json Server.
Local Open Scope N_scope.

(** [s.replace(/c/g, replacement)] for an expression of the one character
    [c] and a replacement without [$]. *)
Definition replace_all (c : N) (replacement s : jsstring) : jsstring :=
  flat_map (fun x => if x =? c then replacement else [x]) s.

(** [escapeHtml(str)], for [str] a string or [undefined]. *)
Definition escapeHtml (str : option jsstring) : jsstring :=
  if truthy str then
    replace_all 34 (lit "&quot;")
      (replace_all 62 (lit "&gt;")
         (replace_all 60 (lit "&lt;")
            (replace_all 38 (lit "&amp;") (to_string str))))
  else [].

(** The object literal [map] of [statusLabel]. *)
Definition status_labels : list (jsstring * jsstring) :=
  [(lit "calling", lit "Dialing salon...");
   (lit "in-progress", lit "Call in progress");
   (lit "completed", lit "Call completed");
   (lit "failed", lit "Call failed");
   (lit "no-answer", lit "No answer");
   (lit "busy", lit "Line busy");
   (lit "canceled", lit "Call canceled")].

Fixpoint own_property (table : list (jsstring * jsstring)) (name : jsstring) : option jsstring :=
  match table with
  | [] => None
  | (k, v) :: table' => if bool_decide (k = name) then Some v else own_property table' name
  end.

(** The properties an object literal inherits from [Object.prototype]:
    for these names [map[status]] is a function or an object, not a label. *)
Definition object_prototype_names : list jsstring :=
  [lit "constructor"; lit "hasOwnProperty"; lit "isPrototypeOf";
   lit "propertyIsEnumerable"; lit "toLocaleString"; lit "toString"; lit "valueOf";
   lit "__proto__"; lit "__defineGetter__"; lit "__defineSetter__";
   lit "__lookupGetter__"; lit "__lookupSetter__"].

Inductive Label :=
| Text (label : jsstring)
| Inherited (name : jsstring).

(** [statusLabel(status, twilioStatus)]; every label of [map] is a
    non-empty string, so an own property always wins over the fallback. *)
Definition statusLabel (status : jsstring) (twilioStatus : option jsstring) : Label :=
  match own_property status_labels status with
  | Some label => Text label
  | None =>
      if bool_decide (status ∈ object_prototype_names) then Inherited status
      else Text (if truthy twilioStatus then lit "Status: " ++ to_string twilioStatus
                 else lit "Connecting...")
  end.

(** [isActive] of [updateStatusBadge]: the dot pulses. *)
Definition isActive (status : jsstring) : bool :=
  bool_decide (status = lit "calling") || bool_decide (status = lit "in-progress").

(** [pollStatus]: [TERMINAL_STATUSES.indexOf(data.status) !== -1], on which
    polling stops. *)
Definition stopsPolling (status : jsstring) : bool :=
  bool_decide (status ∈ TERMINAL_STATUSES).

(** One round of the loop of [renderTranscript]. *)
Definition turn_html (turn : Turn) : jsstring :=
  let isAgent := bool_decide (role turn = lit "assistant") in
  quoted "<div class='transcript-turn " ++ (if isAgent then lit "turn-agent" else lit "turn-salon")
  ++ quoted "'>"
  ++ quoted "<span class='turn-label'>" ++ (if isAgent then lit "AI Agent" else lit "Salon")
  ++ lit "</span>"
  ++ quoted "<span class='turn-text'>" ++ escapeHtml (Some (content turn)) ++ lit "</span>"
  ++ lit "</div>".

(** [renderTranscript(transcript)]: what it assigns to [innerHTML]. *)
Definition renderTranscript (transcript : list Turn) : jsstring :=
  match transcript with
  | [] => quoted "<p class='transcript-empty'>Waiting for call to connect...</p>"
  | _ :: _ => foldl (fun html turn => html ++ turn_html turn) [] transcript
  end.

(** The values of the form fields. *)
Record Form := {
  form_customerName : jsstring;
  form_hairdresserPhone : jsstring;
  form_hairdresserName : jsstring;
  form_service : jsstring;
  form_preferredDate : jsstring;
  form_preferredTime : jsstring
}.

(** The submit listener: the body it posts to [/api/call] through
    [initiateCall], or [None] when it shows the form error instead. *)
Definition submit (f : Form) : option CallBody :=
  let payload :=
    {| body_customerName := Some (trim (form_customerName f));
       body_hairdresserPhone := Some (trim (form_hairdresserPhone f));
       body_hairdresserName := Some (trim (form_hairdresserName f));
       body_service := Some (form_service f);
       body_preferredDate := Some (trim (form_preferredDate f));
       body_preferredTime := Some (trim (form_preferredTime f)) |} in
  if negb (truthy (body_customerName payload)) || negb (truthy (body_hairdresserPhone payload))
     || negb (truthy (body_service payload))
  then None else Some payload.

(** *** What the properties speak of *)

(** How often a code unit occurs. *)
Definition occurrences (c : N) (s : jsstring) : nat :=
  length (List.filter (N.eqb c) s).

(** The one-pass reading of [escapeHtml]. *)
Definition escape_char (c : N) : jsstring :=
  if c =? 38 then lit "&amp;"
  else if c =? 60 then lit "&lt;"
  else if c =? 62 then lit "&gt;"
  else if c =? 34 then lit "&quot;"
  else [c].

End Client.

(** ** The process as a whole *)
Module Process.

Import JS Json Server.
Local Open Scope N_scope.

(** The states the process gets into. *)
Definition reachable (env : Env) (st : State) : Prop :=
  exists evs, st = run env initial evs.

(** The values [status] is ever assigned. *)
Definition all_statuses : list jsstring :=
  lit "calling" :: lit "in-progress" :: TERMINAL_STATUSES.



(** The session object an event is about, if any. *)
Definition target (st : State) (ev : Event) : option nat :=
  match ev with
  | PostVoiceStart b | PostVoiceGather b | PostVoiceNoInput b | PostVoiceStatus b =>
      fst <$> get st (CallSid b)
  | DelegateSettles i _ =>
      match inflight st !! i with
      | Some (AwaitDelegate _ l _) => Some l
      | _ => None
      end
  | _ => None
  end.

(** The event creates a session: a carrier call settles as created for a
    handler that waits for it. *)
Definition creates (st : State) (ev : Event) : option (jsstring * Session) :=
  match ev with
  | CarrierSettles i (CallCreated sid) now =>
      match inflight st !! i with
      | Some (AwaitCarrier _ b) => Some (sid, new_session b sid now)
      | _ => None
      end
  | _ => None
  end.

(** A carrier status that [/voice/status] treats as a failure. *)
Definition is_failure (callStatus : option jsstring) : bool :=
  match callStatus with
  | Some cs => bool_decide (cs ∈ carrier_failures)
  | None => false
  end.

(** What a poll may rely on: a terminal status comes with an outcome, every
    outcome has a member [confirmed], and a call still being placed has no
    outcome. *)
Definition outcome_ok (s : Session) : Prop :=
  (terminal (status s) ->
     exists o, appointmentResult s = Some o /\ is_Some (o !! lit "confirmed"))
  /\ (forall o, appointmentResult s = Some o -> is_Some (o !! lit "confirmed"))
  /\ (status s = lit "calling" -> appointmentResult s = None).

(** The events that say nothing of the conversation: polls, requests for
    new calls, settled carrier calls, and carrier callbacks that report no
    failure. *)
Definition quiet (ev : Event) : bool :=
  match ev with
  | PostVoiceStatus b => negb (is_failure (CallStatus b))
  | GetApiCall _ | PostApiCall _ | CarrierSettles _ _ _ => true
  | _ => false
  end.

End Process.

(** ** More sample data *)
Module MoreSamples.

Import JS Json Server Client Samples.
Local Open Scope N_scope.

(** A reply that gives up. *)
Definition failed_text : jsstring :=
  lit "I understand, thank you. Goodbye!" ++ newline ::
  quoted "APPOINTMENT_FAILED: {'reason': 'fully booked'}".

(** A reply whose payload has an object inside. *)
Definition nested_text : jsstring :=
  quoted "APPOINTMENT_CONFIRMED: {'date': 'Friday', 'stylist': {'name': 'Sam'}}".

(** Alex's call answered, and a second call, to Blake's salon, created. *)
Definition two_calls : State :=
  run env0 answered_call [PostApiCall blake; CarrierSettles 0 (CallCreated (lit "CA2")) 9].

(** The carrier reports progress, and the page polls. *)
Definition progress : list Event :=
  [PostVoiceStatus (lifecycle "CA1" "in-progress");
   PostVoiceStatus (lifecycle "CA1" "completed");
   GetApiCall (lit "CA1")].

(** A filled form, with blanks around the name. *)
Definition alex_form : Form :=
  {| form_customerName := lit "  Alex ";
     form_hairdresserPhone := lit "+15550123";
     form_hairdresserName := [];
     form_service := lit "haircut";
     form_preferredDate := [];
     form_preferredTime := lit " 3pm" |}.

End MoreSamples.

(** * Properties *)

(** ** Strings and the marker expressions *)
Module JSFacts.

Import JS.
Local Open Scope N_scope.

Lemma strip_prefix_Some p s r : strip_prefix p s = Some r <-> s = p ++ r.
Proof.
  revert s. induction p as [|a p IH]; intros s; simpl.
  - split; [intros [= ->] | intros ->]; reflexivity.
  - destruct s as [|b s]; [split; discriminate|].
    destruct (N.eqb_spec a b) as [->|Hne].
    + rewrite IH. split; [intros ->; reflexivity | intros [= ->]; reflexivity].
    + split; [discriminate | intros [= ? ?]; congruence].
Qed.

Lemma strip_prefix_app p r : strip_prefix p (p ++ r) = Some r.
Proof. apply strip_prefix_Some. reflexivity. Qed.

Lemma startsWith_true s p : startsWith s p = true <-> exists r, s = p ++ r.
Proof.
  unfold startsWith. destruct (strip_prefix p s) as [r|] eqn:E.
  - apply strip_prefix_Some in E. split; eauto.
  - split; [discriminate|]. intros [r ->]. rewrite strip_prefix_app in E. discriminate.
Qed.

Lemma includes_true s p : includes s p = true <-> exists a b, s = a ++ p ++ b.
Proof.
  induction s as [|c s IH]; simpl.
  - rewrite orb_false_r, startsWith_true. split.
    + intros [r E]. exists [], r. exact E.
    + intros (a & b & E). destruct a; [eauto|discriminate].
  - rewrite orb_true_iff, startsWith_true, IH. split.
    + intros [[r E]|(a & b & ->)]; [exists [], r; exact E | exists (c :: a), b; reflexivity].
    + intros (a & b & E). destruct a as [|x a]; [left; eauto|].
      injection E as -> ->. right; eauto.
Qed.

Lemma trimStart_split s :
  exists ws, s = ws ++ trimStart s /\ all_space ws.
Proof.
  induction s as [|c s (ws & E & Hws)]; simpl.
  - exists []. split; [reflexivity | constructor].
  - destruct (is_space c) eqn:Hc.
    + exists (c :: ws). split; [simpl; congruence | constructor; assumption].
    + exists []. split; [reflexivity | constructor].
Qed.

Lemma trimStart_head s c r : trimStart s = c :: r -> is_space c = false.
Proof.
  induction s as [|x s IH]; simpl; [discriminate|].
  destruct (is_space x) eqn:Hx; [exact IH|]. intros [= <- <-]. exact Hx.
Qed.

Lemma trimStart_all_space ws s : all_space ws -> trimStart (ws ++ s) = trimStart s.
Proof. induction 1 as [|c ws Hc _ IH]; simpl; [reflexivity|]. rewrite Hc. exact IH. Qed.

Lemma trimStart_no_space c s : is_space c = false -> trimStart (c :: s) = c :: s.
Proof. simpl. intros ->. reflexivity. Qed.

Lemma until_rbrace_inv s p :
  until_rbrace s = Some p ->
  exists body post, s = body ++ rbrace :: post /\ (rbrace ∉ body) /\ p = body ++ [rbrace].
Proof.
  revert p. induction s as [|c s IH]; intros p; simpl; [discriminate|].
  destruct (N.eqb_spec c rbrace) as [->|Hne].
  - intros [= <-]. exists [], s. repeat split. apply not_elem_of_nil.
  - destruct (until_rbrace s) as [q|]; [|discriminate]. intros [= <-].
    destruct (IH q eq_refl) as (body & post & -> & Hnot & ->).
    exists (c :: body), post. repeat split.
    rewrite not_elem_of_cons. split; [congruence | assumption].
Qed.

Lemma until_rbrace_app body post :
  rbrace ∉ body -> until_rbrace (body ++ rbrace :: post) = Some (body ++ [rbrace]).
Proof.
  induction body as [|c body IH]; simpl; intros Hnot.
  - reflexivity.
  - rewrite not_elem_of_cons in Hnot. destruct Hnot as [Hc Hnot].
    destruct (N.eqb_spec c rbrace) as [|_]; [congruence|]. rewrite IH by assumption. reflexivity.
Qed.

Lemma until_rbrace_is_Some body post : is_Some (until_rbrace (body ++ rbrace :: post)).
Proof.
  induction body as [|c body IH]; simpl.
  - eauto.
  - destruct (c =? rbrace); [eauto|]. destruct IH as [q ->]. simpl. eauto.
Qed.

Lemma marker_at_Some marker s p :
  marker_at marker s = Some p ->
  exists ws body post,
    s = marker ++ ws ++ lbrace :: body ++ rbrace :: post /\ all_space ws
    /\ (rbrace ∉ body) /\ p = lbrace :: body ++ [rbrace].
Proof.
  unfold marker_at. destruct (strip_prefix marker s) as [r|] eqn:E; [|discriminate].
  apply strip_prefix_Some in E. subst s.
  destruct (trimStart_split r) as (ws & Er & Hws).
  destruct (trimStart r) as [|c r']; [discriminate|].
  destruct (N.eqb_spec c lbrace) as [->|]; [|discriminate].
  destruct (until_rbrace r') as [q|] eqn:Eq; [|discriminate]. intros [= <-].
  apply until_rbrace_inv in Eq. destruct Eq as (body & post & -> & Hnot & ->).
  exists ws, body, post. rewrite Er. auto.
Qed.

Lemma marker_at_is_Some marker ws body post :
  all_space ws ->
  is_Some (marker_at marker (marker ++ ws ++ lbrace :: body ++ rbrace :: post)).
Proof.
  intros Hws. unfold marker_at. rewrite strip_prefix_app, trimStart_all_space by assumption.
  rewrite trimStart_no_space by reflexivity. rewrite N.eqb_refl.
  destruct (until_rbrace_is_Some body post) as [q ->]. simpl. eauto.
Qed.

(** The marker expression matches exactly the strings that hold a marker. *)
Lemma marker_match_is_Some marker s :
  is_Some (marker_match marker s) <-> has_marker marker s.
Proof.
  split.
  - induction s as [|c s IH]; simpl.
    + destruct (marker_at marker []) as [p|] eqn:E; [|intros [? [=]]].
      intros _. apply marker_at_Some in E. destruct E as (ws & body & post & E & Hws & _).
      exists [], ws, body, post. auto.
    + destruct (marker_at marker (c :: s)) as [p|] eqn:E.
      * intros _. apply marker_at_Some in E. destruct E as (ws & body & post & E & Hws & _).
        exists [], ws, body, post. auto.
      * intros H. destruct (IH H) as (pre & ws & body & post & -> & Hws).
        exists (c :: pre), ws, body, post. auto.
  - intros (pre & ws & body & post & -> & Hws).
    induction pre as [|c pre IH]; simpl.
    + destruct (marker_at_is_Some marker ws body post Hws) as [q Hq].
      destruct (marker ++ ws ++ lbrace :: body ++ rbrace :: post); simpl; rewrite Hq; eauto.
    + destruct (marker_at marker _); [eauto | exact IH].
Qed.

Lemma marker_match_None marker s :
  marker_match marker s = None <-> ~ has_marker marker s.
Proof.
  rewrite <- marker_match_is_Some. destruct (marker_match marker s); split; intros H.
  - discriminate.
  - exfalso. apply H. eauto.
  - intros [? [=]].
  - reflexivity.
Qed.


Lemma trimStart_idem s : trimStart (trimStart s) = trimStart s.
Proof.
  destruct (trimStart s) as [|c r] eqn:E; [reflexivity|].
  apply trimStart_no_space. eapply trimStart_head, E.
Qed.

Lemma trimEnd_split s : exists b, s = trimEnd s ++ b /\ all_space b.
Proof.
  unfold trimEnd. destruct (trimStart_split (rev s)) as (ws & E & Hws).
  exists (rev ws). split.
  - rewrite <- rev_app_distr, <- E, rev_involutive. reflexivity.
  - apply List.Forall_rev, Hws.
Qed.

Lemma trimEnd_idem s : trimEnd (trimEnd s) = trimEnd s.
Proof. unfold trimEnd. rewrite rev_involutive, trimStart_idem. reflexivity. Qed.

Lemma trimStart_trimEnd s : trimStart (trimEnd (trimStart s)) = trimEnd (trimStart s).
Proof.
  destruct (trimEnd_split (trimStart s)) as (b & E & _).
  destruct (trimEnd (trimStart s)) as [|c t]; [reflexivity|].
  apply trimStart_no_space. eapply trimStart_head. exact E.
Qed.

Lemma trim_idem s : trim (trim s) = trim s.
Proof. unfold trim. rewrite trimStart_trimEnd. apply trimEnd_idem. Qed.

(** The trimmed string sits inside the string, between white space. *)
Lemma trim_split s : exists a b, s = a ++ trim s ++ b /\ all_space a /\ all_space b.
Proof.
  destruct (trimStart_split s) as (a & Ea & Ha).
  destruct (trimEnd_split (trimStart s)) as (b & Eb & Hb).
  exists a, b. unfold trim. rewrite <- Eb. auto.
Qed.

Lemma space_not_no_space c m r :
  no_space m -> is_space c = true -> strip_prefix m (c :: r) = None \/ m = [].
Proof.
  intros Hm Hc. destruct Hm as [|a m Ha _]; [right; reflexivity|left]. simpl.
  destruct (N.eqb_spec a c) as [->|]; [congruence | reflexivity].
Qed.

Lemma marker_at_space marker c r :
  no_space marker -> marker <> [] -> is_space c = true -> marker_at marker (c :: r) = None.
Proof.
  intros Hm Hne Hc. unfold marker_at.
  destruct (space_not_no_space c marker r Hm Hc) as [-> | ?]; [reflexivity | contradiction].
Qed.

Lemma marker_match_all_space marker b :
  no_space marker -> marker <> [] -> all_space b -> marker_match marker b = None.
Proof.
  intros Hm Hne. induction 1 as [|c b Hc _ IH]; simpl.
  - unfold marker_at. destruct marker; [contradiction | reflexivity].
  - rewrite marker_at_space by assumption. exact IH.
Qed.

Lemma marker_match_trimStart marker s :
  no_space marker -> marker <> [] -> marker_match marker (trimStart s) = marker_match marker s.
Proof.
  intros Hm Hne. induction s as [|c s IH]; [reflexivity|].
  simpl trimStart. destruct (is_space c) eqn:Hc; [|reflexivity].
  rewrite IH. simpl. rewrite marker_at_space by assumption. reflexivity.
Qed.

Lemma strip_prefix_app_spaces m t b :
  no_space m -> all_space b ->
  strip_prefix m (t ++ b) = (fun r => r ++ b) <$> strip_prefix m t.
Proof.
  intros Hm Hb. revert t. induction Hm as [|a m Ha _ IH]; intros t; [reflexivity|].
  destruct t as [|x t]; simpl.
  - destruct Hb as [|c b Hc _]; [reflexivity|].
    destruct (N.eqb_spec a c) as [->|]; [congruence | reflexivity].
  - destruct (a =? x); [apply IH | reflexivity].
Qed.

Lemma trimStart_app_spaces r b :
  all_space b ->
  trimStart (r ++ b) = match trimStart r with [] => [] | c :: r' => c :: r' ++ b end.
Proof.
  intros Hb. induction r as [|x r IH]; simpl.
  - rewrite <- (app_nil_r b), trimStart_all_space by assumption. reflexivity.
  - destruct (is_space x); [exact IH | reflexivity].
Qed.

Lemma until_rbrace_app_spaces r b :
  all_space b -> until_rbrace (r ++ b) = until_rbrace r.
Proof.
  intros Hb. induction r as [|x r IH]; simpl.
  - induction Hb as [|c b Hc _ IHb]; [reflexivity|]. simpl.
    destruct (N.eqb_spec c rbrace) as [->|]; [discriminate Hc|]. rewrite IHb. reflexivity.
  - rewrite IH. reflexivity.
Qed.

Lemma marker_at_app_spaces marker t b :
  no_space marker -> all_space b -> marker_at marker (t ++ b) = marker_at marker t.
Proof.
  intros Hm Hb. unfold marker_at. rewrite strip_prefix_app_spaces by assumption.
  destruct (strip_prefix marker t) as [r|]; [simpl|reflexivity].
  rewrite trimStart_app_spaces by assumption.
  destruct (trimStart r) as [|c r']; [reflexivity|].
  rewrite until_rbrace_app_spaces by assumption. reflexivity.
Qed.

Lemma marker_match_app_spaces marker t b :
  no_space marker -> marker <> [] -> all_space b ->
  marker_match marker (t ++ b) = marker_match marker t.
Proof.
  intros Hm Hne Hb. induction t as [|x t IH].
  - simpl app. rewrite marker_match_all_space by assumption.
    simpl. unfold marker_at. destruct marker; [contradiction | reflexivity].
  - simpl. rewrite <- (marker_at_app_spaces marker (x :: t) b) by assumption.
    simpl app. rewrite IH. reflexivity.
Qed.

(** Trimming neither hides a marker nor changes the payload found. *)
Lemma marker_match_trim marker s :
  no_space marker -> marker <> [] -> marker_match marker (trim s) = marker_match marker s.
Proof.
  intros Hm Hne. unfold trim.
  destruct (trimEnd_split (trimStart s)) as (b & E & Hb).
  rewrite <- (marker_match_trimStart marker s) by assumption.
  rewrite E at 2. rewrite marker_match_app_spaces by assumption. reflexivity.
Qed.

Lemma includes_app_mono a s b p : includes s p = true -> includes (a ++ s ++ b) p = true.
Proof.
  rewrite !includes_true. intros (x & y & ->). exists (a ++ x), (y ++ b).
  rewrite <- !app_assoc. reflexivity.
Qed.

Lemma cut_from_line_id marker s :
  includes s (newline :: marker) = false -> cut_from_line marker s = s.
Proof.
  induction s as [|c s IH]; [reflexivity|]. simpl.
  intros H. apply orb_false_elim in H. destruct H as [H1 H2].
  rewrite (IH H2). unfold startsWith in *. simpl in H1.
  destruct (N.eqb_spec newline c) as [<-|Hne].
  - rewrite N.eqb_refl. simpl.
    destruct (strip_prefix marker s); [discriminate | reflexivity].
  - destruct (N.eqb_spec c newline) as [->|]; [contradiction | reflexivity].
Qed.

Lemma strip_prefix_before_space m sp c t r :
  no_space m -> is_space c = true ->
  strip_prefix m (sp ++ c :: t) = Some r -> is_Some (strip_prefix m sp).
Proof.
  intros Hm Hc. revert sp. induction Hm as [|a m Ha _ IH]; intros sp; [simpl; eauto|].
  destruct sp as [|x sp]; simpl.
  - destruct (N.eqb_spec a c) as [->|]; [congruence | discriminate].
  - destruct (a =? x); [apply IH | discriminate].
Qed.

(** The stripping expression cuts at the first line that starts with the
    marker. *)
Lemma cut_from_line_app marker spoken rest :
  no_space marker ->
  includes spoken (newline :: marker) = false ->
  cut_from_line marker (spoken ++ newline :: marker ++ rest) = spoken.
Proof.
  intros Hm. induction spoken as [|c spoken IH]; intros Hnot.
  - simpl. unfold startsWith. rewrite strip_prefix_app. reflexivity.
  - simpl in Hnot. apply orb_false_elim in Hnot. destruct Hnot as [Hhere Hnot].
    simpl. rewrite (IH Hnot).
    destruct (N.eqb_spec c newline) as [->|]; [|reflexivity]. simpl.
    unfold startsWith in *. simpl in Hhere.
    destruct (strip_prefix marker (spoken ++ newline :: marker ++ rest)) as [r|] eqn:E;
      [|reflexivity].
    destruct (strip_prefix_before_space marker spoken newline _ r Hm eq_refl E) as [q Hq].
    rewrite Hq in Hhere. discriminate.
Qed.

End JSFacts.

(** ** The delegate wrapper *)
Module ClaudeProps.

Import JS Json Claude JSFacts Samples.
Local Open Scope N_scope.

Lemma CONFIRMED_no_space : no_space CONFIRMED.
Proof. unfold no_space, CONFIRMED. simpl lit. repeat constructor. Qed.

Lemma FAILED_no_space : no_space FAILED.
Proof. unfold no_space, FAILED. simpl lit. repeat constructor. Qed.

Lemma confirmedMatch_trim text : marker_match CONFIRMED (trim text) = marker_match CONFIRMED text.
Proof. apply marker_match_trim; [apply CONFIRMED_no_space | discriminate]. Qed.

Lemma failedMatch_trim text : marker_match FAILED (trim text) = marker_match FAILED text.
Proof. apply marker_match_trim; [apply FAILED_no_space | discriminate]. Qed.

(** [JSON.parse] on a few texts. *)
Example parse_object :
  Json.parse (quoted "{'date': 'Friday', 'slots': [1, 2.5e3, true, null], 'date': 'Monday'}")
  = Some (JObj {[ lit "date" := JStr (lit "Monday");
                  lit "slots" := JArr [JNum (lit "1"); JNum (lit "2.5e3"); JBool true; JNull] ]}).
Proof. vm_compute. reflexivity. Qed.

Example parse_escapes :
  Json.parse (quoted "'a\u0041\n'") = Some (JStr [97; 65; 10]).
Proof. vm_compute. reflexivity. Qed.

Example parse_rejects :
  Json.parse (lit "{date: Friday}") = None
  /\ Json.parse (quoted "{'a': 1,}") = None
  /\ Json.parse (quoted "{'a': 01}") = None
  /\ Json.parse (quoted "{'a': {'b': 1}") = None
  /\ Json.parse (lit "") = None.
Proof. repeat split; vm_compute; reflexivity. Qed.

(** The three ways [parseReply] goes, by what the two expressions find in
    the text as the delegate gave it. *)
Lemma parseReply_confirmed text payload :
  marker_match CONFIRMED text = Some payload ->
  parseReply text =
    {| response := trim (cut_from_line CONFIRMED (trim text));
       isComplete := true;
       appointmentResult :=
         Some match Json.parse payload with
              | Some data => own_props data ∪ {[ lit "confirmed" := JBool true ]}
              | None => {[ lit "confirmed" := JBool true; lit "raw" := JStr payload ]}
              end |}.
Proof. intros H. unfold parseReply. rewrite confirmedMatch_trim, H. reflexivity. Qed.

Lemma parseReply_failed text payload :
  marker_match CONFIRMED text = None ->
  marker_match FAILED text = Some payload ->
  parseReply text =
    {| response := trim (cut_from_line FAILED (trim text));
       isComplete := true;
       appointmentResult :=
         Some match Json.parse payload with
              | Some data => own_props data ∪ {[ lit "confirmed" := JBool false ]}
              | None => {[ lit "confirmed" := JBool false; lit "raw" := JStr payload ]}
              end |}.
Proof.
  intros Hc Hf. unfold parseReply. rewrite confirmedMatch_trim, failedMatch_trim, Hc, Hf.
  reflexivity.
Qed.

Lemma parseReply_plain text :
  marker_match CONFIRMED text = None ->
  marker_match FAILED text = None ->
  parseReply text = {| response := trim text; isComplete := false; appointmentResult := None |}.
Proof.
  intros Hc Hf. unfold parseReply. rewrite confirmedMatch_trim, failedMatch_trim, Hc, Hf.
  reflexivity.
Qed.

(** A marker makes the reply terminal, with an outcome. *)
Lemma parseReply_marker_terminal text :
  has_marker CONFIRMED text \/ has_marker FAILED text ->
  isComplete (parseReply text) = true /\ is_Some (appointmentResult (parseReply text)).
Proof.
  rewrite <- !marker_match_is_Some. intros H.
  destruct (marker_match CONFIRMED text) as [p|] eqn:Hc.
  - rewrite (parseReply_confirmed _ _ Hc). simpl. eauto.
  - destruct H as [[? [=]]|[q Hf]]. rewrite (parseReply_failed _ _ Hc Hf). simpl. eauto.
Qed.

(** Without a marker the reply goes on, and all of the trimmed text is
    spoken. *)
Lemma parseReply_no_marker text :
  ~ has_marker CONFIRMED text -> ~ has_marker FAILED text ->
  parseReply text = {| response := trim text; isComplete := false; appointmentResult := None |}.
Proof. rewrite <- !marker_match_None. apply parseReply_plain. Qed.

(** The example of the specification. *)
Example parseReply_all_set :
  parseReply (lit "All set!" ++ newline ::
              quoted "APPOINTMENT_CONFIRMED: {'date':'Friday','time':'3pm','service':'haircut','notes':''}")
  = {| response := lit "All set!";
       isComplete := true;
       appointmentResult :=
         Some (<[lit "confirmed" := JBool true]>
              (<[lit "date" := JStr (lit "Friday")]>
              (<[lit "time" := JStr (lit "3pm")]>
              (<[lit "service" := JStr (lit "haircut")]>
              {[ lit "notes" := JStr [] ]})))) |}.
Proof. vm_compute. reflexivity. Qed.

Lemma response_unstripped marker text :
  includes text (newline :: marker) = false ->
  trim (cut_from_line marker (trim text)) = trim text.
Proof.
  intros Hnl.
  assert (includes (trim text) (newline :: marker) = false) as Hnl'.
  { destruct (includes (trim text) _) eqn:E; [|reflexivity].
    destruct (trim_split text) as (a & b & Et & _).
    rewrite Et, (includes_app_mono a (trim text) b _ E) in Hnl. discriminate. }
  rewrite (cut_from_line_id _ _ Hnl'). apply trim_idem.
Qed.

(** A marker on a line of its own is stripped, with all that follows it. *)
Lemma parseReply_strips_marker_line text spoken rest :
  trim text = spoken ++ newline :: CONFIRMED ++ rest ->
  has_marker CONFIRMED text ->
  includes spoken (newline :: CONFIRMED) = false ->
  response (parseReply text) = trim spoken.
Proof.
  intros Et Hm Hnot. apply marker_match_is_Some in Hm. destruct Hm as [p Hp].
  rewrite (parseReply_confirmed _ _ Hp). simpl. rewrite Et.
  rewrite (cut_from_line_app _ _ _ CONFIRMED_no_space Hnot). reflexivity.
Qed.

(** C3 (the code departs from the claim): a marker that no line feed
    precedes is found, so the reply is terminal, but it is not stripped: the
    spoken text is the whole trimmed text, marker and payload included.  This
    holds for the CONFIRMED marker and, when there is none, for the FAILED
    marker. *)
Theorem C3_marker_without_line_feed_is_spoken (text : jsstring) :
  (has_marker CONFIRMED text ->
   includes text (newline :: CONFIRMED) = false ->
   isComplete (parseReply text) = true
   /\ response (parseReply text) = trim text
   /\ has_marker CONFIRMED (response (parseReply text)))
  /\ (~ has_marker CONFIRMED text -> has_marker FAILED text ->
      includes text (newline :: FAILED) = false ->
      isComplete (parseReply text) = true
      /\ response (parseReply text) = trim text
      /\ has_marker FAILED (response (parseReply text))).
Proof.
  split.
  - intros Hm Hnl. apply marker_match_is_Some in Hm. destruct Hm as [p Hp].
    rewrite (parseReply_confirmed _ _ Hp). simpl.
    rewrite (response_unstripped _ _ Hnl). repeat split.
    apply marker_match_is_Some. rewrite confirmedMatch_trim, Hp. eauto.
  - intros Hc Hm Hnl. apply marker_match_None in Hc.
    apply marker_match_is_Some in Hm. destruct Hm as [p Hp].
    rewrite (parseReply_failed _ _ Hc Hp). simpl.
    rewrite (response_unstripped _ _ Hnl). repeat split.
    apply marker_match_is_Some. rewrite failedMatch_trim, Hp. eauto.
Qed.

(** On a reply whose marker follows the sentence on the same line the
    salon hears the marker. *)
Lemma C3_marker_without_line_feed_is_spoken_witness :
  isComplete (parseReply inline_marker_text) = true
  /\ response (parseReply inline_marker_text) = inline_marker_text
  /\ has_marker CONFIRMED (response (parseReply inline_marker_text)).
Proof.
  assert (trim inline_marker_text = inline_marker_text) as E by (vm_compute; reflexivity).
  rewrite <- E at 2.
  destruct (C3_marker_without_line_feed_is_spoken inline_marker_text) as [H _]. apply H.
  - apply marker_match_is_Some. vm_compute. eauto.
  - vm_compute. reflexivity.
Defined.

(** C4: a marker whose payload is not JSON still ends the conversation; the
    outcome keeps the payload as it stands under [raw], with [confirmed] true
    for the CONFIRMED marker and false for the FAILED marker (the one the
    parser goes by when no CONFIRMED marker is found), and nothing is
    thrown. *)
Theorem C4_malformed_payload_kept_raw (text payload : jsstring) :
  Json.parse payload = None ->
  (marker_match CONFIRMED text = Some payload ->
     exists r, getClaudeResponse (ApiMessage text) = Some r
       /\ isComplete r = true
       /\ appointmentResult r
          = Some {[ lit "confirmed" := JBool true; lit "raw" := JStr payload ]})
  /\ (marker_match CONFIRMED text = None -> marker_match FAILED text = Some payload ->
     exists r, getClaudeResponse (ApiMessage text) = Some r
       /\ isComplete r = true
       /\ appointmentResult r
          = Some {[ lit "confirmed" := JBool false; lit "raw" := JStr payload ]}).
Proof.
  intros Hbad. split.
  - intros Hc. eexists. split; [reflexivity|].
    rewrite (parseReply_confirmed _ _ Hc), Hbad. split; reflexivity.
  - intros Hc Hf. eexists. split; [reflexivity|].
    rewrite (parseReply_failed _ _ Hc Hf), Hbad. split; reflexivity.
Qed.

Lemma C4_malformed_payload_kept_raw_witness :
  (exists r, getClaudeResponse (ApiMessage malformed_confirmed_text) = Some r
     /\ isComplete r = true
     /\ appointmentResult r
        = Some {[ lit "confirmed" := JBool true; lit "raw" := JStr (lit "{date: Friday}") ]})
  /\ (exists r, getClaudeResponse (ApiMessage malformed_failed_text) = Some r
     /\ isComplete r = true
     /\ appointmentResult r
        = Some {[ lit "confirmed" := JBool false; lit "raw" := JStr (lit "{fully booked}") ]}).
Proof.
  split.
  - apply (C4_malformed_payload_kept_raw malformed_confirmed_text (lit "{date: Friday}"));
      vm_compute; reflexivity.
  - apply (C4_malformed_payload_kept_raw malformed_failed_text (lit "{fully booked}"));
      vm_compute; reflexivity.
Defined.

(** C10 fails as stated: the payload of the CONFIRMED marker is spread over
    [confirmed: true], so a payload with a member [confirmed] of its own
    decides that field. *)
Lemma C10_counterexample :
  has_marker CONFIRMED self_denying_text /\ has_marker FAILED self_denying_text
  /\ isComplete (parseReply self_denying_text) = true
  /\ appointmentResult (parseReply self_denying_text)
     = Some {[ lit "confirmed" := JBool false; lit "date" := JStr (lit "Friday") ]}
  /\ (appointmentResult (parseReply self_denying_text) ≫= (.!! lit "confirmed")) <> Some (JBool true).
Proof.
  split; [apply marker_match_is_Some; vm_compute; eauto|].
  split; [apply marker_match_is_Some; vm_compute; eauto|].
  split; [vm_compute; reflexivity|].
  assert (appointmentResult (parseReply self_denying_text)
          = Some {[ lit "confirmed" := JBool false; lit "date" := JStr (lit "Friday") ]}) as E
    by (vm_compute; reflexivity).
  split; [exact E|]. rewrite E. vm_compute. discriminate.
Qed.

(** C10, amended: with both markers in the text the reply is terminal and
    its outcome is built from the payload of the CONFIRMED marker alone: that
    payload spread over [confirmed: true] when it is JSON, so that [confirmed]
    is true unless the payload has a member of that name, and
    [confirmed: true] with the raw payload otherwise.  The FAILED marker
    plays no part. *)
Theorem C10_confirmed_marker_decides (text : jsstring) :
  has_marker CONFIRMED text -> has_marker FAILED text ->
  exists payload outcome,
    marker_match CONFIRMED text = Some payload
    /\ isComplete (parseReply text) = true
    /\ appointmentResult (parseReply text) = Some outcome
    /\ match Json.parse payload with
       | Some data =>
           outcome = own_props data ∪ {[ lit "confirmed" := JBool true ]}
           /\ (own_props data !! lit "confirmed" = None ->
               outcome !! lit "confirmed" = Some (JBool true))
       | None => outcome = {[ lit "confirmed" := JBool true; lit "raw" := JStr payload ]}
       end.
Proof.
  intros Hc _. apply marker_match_is_Some in Hc. destruct Hc as [p Hp].
  exists p. eexists. split; [exact Hp|]. rewrite (parseReply_confirmed _ _ Hp). simpl.
  split; [reflexivity|]. split; [reflexivity|].
  destruct (Json.parse p) as [data|]; [|reflexivity].
  split; [reflexivity|]. intros Hno.
  rewrite lookup_union_r by exact Hno. apply lookup_singleton_eq.
Qed.

Lemma C10_confirmed_marker_decides_witness :
  exists outcome,
    isComplete (parseReply both_markers_text) = true
    /\ appointmentResult (parseReply both_markers_text) = Some outcome
    /\ outcome !! lit "confirmed" = Some (JBool true)
    /\ outcome !! lit "date" = Some (JStr (lit "Friday"))
    /\ outcome !! lit "reason" = None.
Proof.
  destruct (C10_confirmed_marker_decides both_markers_text)
    as (p & o & Hp & Hc & Ho & Hm);
    [apply marker_match_is_Some; vm_compute; eauto
    |apply marker_match_is_Some; vm_compute; eauto|].
  assert (marker_match CONFIRMED both_markers_text
          = Some (quoted "{'date': 'Friday', 'time': '3pm'}")) as Hp'
    by (vm_compute; reflexivity).
  rewrite Hp' in Hp. injection Hp as <-.
  assert (Json.parse (quoted "{'date': 'Friday', 'time': '3pm'}")
          = Some (JObj {[ lit "date" := JStr (lit "Friday"); lit "time" := JStr (lit "3pm") ]}))
    as Hparse by (vm_compute; reflexivity).
  rewrite Hparse in Hm. destruct Hm as [Eo Himp].
  exists o. split; [exact Hc|]. split; [exact Ho|].
  split; [apply Himp; vm_compute; reflexivity|].
  rewrite Eo. split; vm_compute; reflexivity.
Defined.

End ClaudeProps.

(** ** The server *)
Module ServerProps.

Import JS Json Server JSFacts Samples.
Local Open Scope N_scope.

(** *** The greeting *)

(** C5: the greeting opens with the purpose of the call and closes with
    the question; in between it names the preferred date and time when both
    are there, the one that is there when the other is empty or absent, and
    the flexible, next available slot wording, with no date or time clause,
    when neither is there. *)
Theorem C5_greeting_by_preferences (customerName hairdresserName service : jsstring)
    (date time : jsstring) (absentDate absentTime : option jsstring) :
  date <> [] -> time <> [] -> truthy absentDate = false -> truthy absentTime = false ->
  let both := buildInitialGreeting customerName hairdresserName service (Some date) (Some time) in
  let dateOnly := buildInitialGreeting customerName hairdresserName service (Some date) absentTime in
  let timeOnly := buildInitialGreeting customerName hairdresserName service absentDate (Some time) in
  let neither := buildInitialGreeting customerName hairdresserName service absentDate absentTime in
  (both = purpose customerName service
          ++ lit " They were hoping to come in on " ++ date ++ lit " around " ++ time ++ lit "."
          ++ closing
   /\ includes both date = true /\ includes both time = true)
  /\ dateOnly = purpose customerName service
                ++ lit " They were hoping to come in on " ++ date ++ lit "." ++ closing
  /\ timeOnly = purpose customerName service
                ++ lit " They were hoping to come in around " ++ time ++ lit "." ++ closing
  /\ neither = purpose customerName service ++ flexible ++ closing.
Proof.
  intros Hd Ht Had Hat. cbn zeta.
  assert (truthy (Some date) = true) as Td by (destruct date; [contradiction | reflexivity]).
  assert (truthy (Some time) = true) as Tt by (destruct time; [contradiction | reflexivity]).
  unfold buildInitialGreeting. rewrite Td, Tt, Had, Hat. cbn [andb to_string].
  fold (purpose customerName service). fold closing. fold flexible.
  split; [split; [|split] | split; [|split]].
  - rewrite <- !app_assoc. reflexivity.
  - apply includes_true.
    exists (purpose customerName service ++ lit " They were hoping to come in on "),
           (lit " around " ++ time ++ lit "." ++ closing).
    rewrite <- !app_assoc. reflexivity.
  - apply includes_true.
    exists (purpose customerName service ++ lit " They were hoping to come in on "
            ++ date ++ lit " around "),
           (lit "." ++ closing).
    rewrite <- !app_assoc. reflexivity.
  - rewrite <- !app_assoc. reflexivity.
  - rewrite <- !app_assoc. reflexivity.
  - rewrite <- !app_assoc. reflexivity.
Qed.

Lemma C5_greeting_by_preferences_witness :
  buildInitialGreeting (lit "Alex") (lit "the salon") (lit "haircut") (Some (lit "Friday")) (Some (lit "3pm"))
  = lit "Hello! I'm calling on behalf of Alex to schedule a haircut appointment. They were hoping to come in on Friday around 3pm. Is that something you can help me with?"
  /\ buildInitialGreeting (lit "Alex") (lit "the salon") (lit "haircut") (Some (lit "Friday")) (Some [])
  = lit "Hello! I'm calling on behalf of Alex to schedule a haircut appointment. They were hoping to come in on Friday. Is that something you can help me with?"
  /\ buildInitialGreeting (lit "Alex") (lit "the salon") (lit "haircut") None (Some (lit "3pm"))
  = lit "Hello! I'm calling on behalf of Alex to schedule a haircut appointment. They were hoping to come in around 3pm. Is that something you can help me with?"
  /\ buildInitialGreeting (lit "Alex") (lit "the salon") (lit "haircut") None (Some [])
  = lit "Hello! I'm calling on behalf of Alex to schedule a haircut appointment. They are flexible on timing and are looking for the next available slot. Is that something you can help me with?".
Proof.
  destruct (C5_greeting_by_preferences (lit "Alex") (lit "the salon") (lit "haircut")
              (lit "Friday") (lit "3pm") None (Some []))
    as ((Hboth & _ & _) & Hdate & Htime & Hnone);
    [discriminate | discriminate | reflexivity | reflexivity |].
  split; [rewrite Hboth; reflexivity|].
  split; [rewrite Hdate; reflexivity|].
  split; [rewrite Htime; reflexivity | rewrite Hnone; reflexivity].
Defined.

(** The example of the specification: no date, no time, and no clause that
    would name one. *)
Example greeting_flexible :
  let g := buildInitialGreeting (lit "Alex") (lit "the salon") (lit "haircut") (Some []) (Some []) in
  includes g (lit "flexible") = true
  /\ includes g (lit "They were hoping to come in") = false.
Proof. vm_compute. split; reflexivity. Qed.


(** *** Session objects under the handlers *)

Lemma get_Some st id l s :
  get st id = Some (l, s) ->
  heap st !! l = Some s /\ exists sid, id = Some sid /\ callSessions st !! sid = Some l.
Proof.
  unfold get. destruct id as [sid|]; [|discriminate].
  destruct (callSessions st !! sid) as [l'|] eqn:E; [|discriminate].
  destruct (heap st !! l') as [s'|] eqn:E'; [|discriminate].
  intros [= <- <-]. eauto.
Qed.

Lemma get_None st sid : callSessions st !! sid = None -> get st (Some sid) = None.
Proof. unfold get. intros ->. reflexivity. Qed.

Lemma heap_mutate st l' f l s :
  heap st !! l = Some s ->
  heap (mutate l' f st) !! l = Some (if decide (l' = l) then f s else s).
Proof.
  intros H. unfold mutate. simpl. destruct (decide (l' = l)) as [->|Hne].
  - rewrite list_lookup_alter_eq, H. reflexivity.
  - rewrite list_lookup_alter_ne by assumption. exact H.
Qed.

Lemma get_set st sid x : get (set sid x st) (Some sid) = Some (length (heap st), x).
Proof.
  unfold get, set. simpl. rewrite lookup_insert_eq.
  rewrite lookup_app_r by reflexivity. rewrite Nat.sub_diag. reflexivity.
Qed.

Section Handlers.

Variable env : Env.

(** Every turn of the event loop keeps every session object, and changes
    it at most as the handler of the event does. *)
Lemma step_touches st ev l s :
  heap st !! l = Some s ->
  exists s', heap (step env st ev).2 !! l = Some s' /\ touches ev s s'.
Proof.
  intros H.
  assert (forall l' f, (forall x, touches ev x (f x)) ->
            exists s', heap (mutate l' f st) !! l = Some s' /\ touches ev s s') as Hmut.
  { intros l' f Hf. rewrite (heap_mutate st l' f l s H).
    destruct (decide (l' = l)); eexists; split; try reflexivity; [apply Hf | constructor]. }
  assert (exists s', heap st !! l = Some s' /\ touches ev s s') as Hsame
    by (exists s; split; [exact H | constructor]).
  destruct ev as [b|i r now|sid|b|b|i r|b|b]; simpl.
  - destruct (api_call env b); exact Hsame.
  - destruct (inflight st !! i) as [[params b|? ? ?]|]; try exact Hsame.
    destruct r as [sid|message]; simpl; [|exact Hsame].
    exists s. split; [|constructor]. apply lookup_app_l_Some, H.
  - exact Hsame.
  - unfold voice_start. destruct (get st (CallSid b)) as [[l' s0]|]; simpl; [|exact Hsame].
    apply Hmut. constructor.
  - unfold voice_gather. destruct (get st (CallSid b)) as [[l' s0]|]; simpl; [|exact Hsame].
    apply (Hmut l' (heard (or_else (SpeechResult b) []))). constructor.
  - destruct (inflight st !! i) as [[? ?|msgs l' baseUrl]|]; try exact Hsame.
    unfold voice_gather_resume. destruct r as [|text]; simpl.
    + apply (Hmut l' delegate_failed). constructor.
    + apply (Hmut l' (replied (Claude.parseReply text))). constructor.
  - unfold voice_no_input. destruct (get st (CallSid b)) as [[l' s0]|]; simpl; [|exact Hsame].
    apply (Hmut l' no_input). constructor.
  - unfold voice_status. simpl. destruct (get st (CallSid b)) as [[l' s0]|]; [|exact Hsame].
    apply (Hmut l' (status_callback (CallStatus b))). constructor.
Qed.


(** What the webhooks do to the state when the call is known. *)
Lemma step_voice_start st b l s :
  get st (CallSid b) = Some (l, s) ->
  step env st (PostVoiceStart b)
  = (Some (xml (keep_listening (BASE_URL env) (initialGreeting s))), mutate l answered st).
Proof. intros H. unfold step, voice_start. rewrite H. reflexivity. Qed.

Lemma step_voice_no_input st b l s :
  get st (CallSid b) = Some (l, s) ->
  step env st (PostVoiceNoInput b)
  = (Some (xml [Gather (gather_options (BASE_URL env)) alice reprompt;
                Say (Some alice) goodbye; Hangup]),
     mutate l no_input st).
Proof. intros H. unfold step, voice_no_input. rewrite H. reflexivity. Qed.

Lemma step_voice_status st b l s :
  get st (CallSid b) = Some (l, s) ->
  step env st (PostVoiceStatus b)
  = (Some {| code := 200; body := StatusText |}, mutate l (status_callback (CallStatus b)) st).
Proof. intros H. unfold step, voice_status. rewrite H. reflexivity. Qed.

Lemma step_voice_gather st b l s :
  get st (CallSid b) = Some (l, s) ->
  step env st (PostVoiceGather b)
  = (None,
     suspend (AwaitDelegate (claudeMessages (heard (or_else (SpeechResult b) []) s)) l
                (BASE_URL env))
       (mutate l (heard (or_else (SpeechResult b) [])) st)).
Proof. intros H. unfold step, voice_gather. rewrite H. reflexivity. Qed.

Lemma heap_mutate_same st l f s :
  heap st !! l = Some s -> heap (mutate l f st) !! l = Some (f s).
Proof. intros H. rewrite (heap_mutate st l f l s H), decide_True by reflexivity. reflexivity. Qed.

Lemma run_cons st ev evs : run env st (ev :: evs) = run env (step env st ev).2 evs.
Proof. reflexivity. Qed.

(** A property of session objects that every event of a kind keeps is
    kept by every sequence of such events. *)
Lemma run_preserves (allowed : Event -> bool) (P : Session -> Prop) :
  (forall ev s s', allowed ev = true -> touches ev s s' -> P s -> P s') ->
  forall evs st l s,
    Forall (fun ev => allowed ev = true) evs -> heap st !! l = Some s -> P s ->
    exists s', heap (run env st evs) !! l = Some s' /\ P s'.
Proof.
  intros Hkeep. induction evs as [|ev evs IH]; intros st l s Hall H HP.
  - exists s. split; assumption.
  - rewrite run_cons. apply Forall_cons in Hall. destruct Hall as [Hev Hall].
    destruct (step_touches st ev l s H) as (s1 & H1 & Ht).
    apply (IH _ l s1 Hall H1). eapply Hkeep; eassumption.
Qed.

Lemma no_input_completed s : status s = lit "completed" -> no_input s = s.
Proof.
  intros Hs. unfold no_input. rewrite bool_decide_false; [reflexivity|].
  intros Hne. apply Hne, Hs.
Qed.

Lemma status_callback_completed cs s :
  status s = lit "completed" -> status_callback cs s = set_twilioStatus cs s.
Proof.
  intros Hs. unfold status_callback. destruct cs as [c|]; [|reflexivity].
  destruct (bool_decide (c ∈ carrier_failures)); [|reflexivity].
  rewrite bool_decide_false; [reflexivity|]. intros Hne. apply Hne, Hs.
Qed.

Lemma status_callback_keeps_outcome cs s o :
  appointmentResult s = Some o -> appointmentResult (status_callback cs s) = Some o.
Proof.
  intros Ho. unfold status_callback. destruct cs as [c|]; [|exact Ho].
  destruct (bool_decide (c ∈ carrier_failures)); [|exact Ho].
  destruct (bool_decide _); [|exact Ho]. simpl. rewrite Ho. exact Ho.
Qed.

Lemma touches_completed ev s s' :
  negb (conversational ev) = true -> touches ev s s' ->
  status s = lit "completed" /\ appointmentResult s = appointmentResult s ->
  status s' = lit "completed" /\ appointmentResult s' = appointmentResult s.
Proof.
  intros Hev Ht [Hs _]. destruct Ht; try discriminate Hev.
  - auto.
  - auto.
  - rewrite (no_input_completed s Hs). auto.
  - rewrite (status_callback_completed _ s Hs). auto.
Qed.

Lemma terminal_completed : terminal (lit "completed").
Proof. unfold terminal, TERMINAL_STATUSES. rewrite !elem_of_cons. tauto. Qed.

Lemma terminal_carrier_failure cs : cs ∈ carrier_failures -> terminal cs.
Proof. unfold terminal, TERMINAL_STATUSES, carrier_failures. rewrite !elem_of_cons. tauto. Qed.

Lemma touches_terminal ev s s' :
  negb (is_voice_start ev) = true -> touches ev s s' ->
  terminal (status s) -> terminal (status s').
Proof.
  intros Hev Ht Hs. destruct Ht; try discriminate Hev.
  - exact Hs.
  - exact Hs.
  - unfold replied. destruct (Claude.isComplete _); [apply terminal_completed | exact Hs].
  - unfold terminal, TERMINAL_STATUSES. simpl status. rewrite !elem_of_cons. tauto.
  - unfold no_input. destruct (bool_decide _); [|exact Hs].
    unfold terminal, TERMINAL_STATUSES. simpl status. rewrite !elem_of_cons. tauto.
  - unfold status_callback. destruct (CallStatus b) as [c|]; [|exact Hs].
    destruct (bool_decide (c ∈ carrier_failures)) eqn:Hc; [|exact Hs].
    apply bool_decide_eq_true in Hc.
    destruct (bool_decide (status _ ≠ _)); [|exact Hs].
    assert (status (set_status (if bool_decide (c = lit "busy") then lit "busy" else c)
                      (set_twilioStatus (Some c) s)) = c) as E.
    { simpl. case_bool_decide; congruence. }
    destruct (appointmentResult _); simpl in *; rewrite E; apply terminal_carrier_failure, Hc.
Qed.

(** C1, amended: once a session is completed, no sequence of events other
    than the answer webhook and a settled delegate call changes its status
    or its outcome; a no-speech timeout leaves the session as it is and a
    carrier callback records the carrier status only.  And a carrier callback
    never replaces an outcome that is there, whatever the status. *)
Theorem C1_completed_session_keeps_outcome (st : State) (l : nat) (s : Session) :
  heap st !! l = Some s ->
  (status s = lit "completed" ->
     (forall evs, Forall (fun ev => negb (conversational ev) = true) evs ->
        exists s', heap (run env st evs) !! l = Some s'
          /\ status s' = lit "completed" /\ appointmentResult s' = appointmentResult s)
     /\ (forall b, get st (CallSid b) = Some (l, s) ->
           heap (step env st (PostVoiceNoInput b)).2 !! l = Some s
           /\ heap (step env st (PostVoiceStatus b)).2 !! l
              = Some (set_twilioStatus (CallStatus b) s)))
  /\ (forall o b, appointmentResult s = Some o ->
        exists s', heap (step env st (PostVoiceStatus b)).2 !! l = Some s'
          /\ appointmentResult s' = Some o).
Proof.
  intros H. split.
  - intros Hs. split.
    + intros evs Hall.
      refine (run_preserves (fun ev => negb (conversational ev))
                (fun s' => status s' = lit "completed"
                           /\ appointmentResult s' = appointmentResult s)
                _ evs st l s Hall H (conj Hs eq_refl)).
      intros ev x x' Hev Ht [Hx Hx']. rewrite <- Hx'.
      eapply touches_completed; eauto.
    + intros b Hget.
      rewrite (step_voice_no_input st b l s Hget), (step_voice_status st b l s Hget).
      cbn [snd]. rewrite !(heap_mutate_same st l _ s H).
      rewrite (no_input_completed s Hs), (status_callback_completed _ s Hs). auto.
  - intros o b Ho. destruct (step_touches st (PostVoiceStatus b) l s H) as (s' & H' & Ht).
    exists s'. split; [exact H'|]. inversion Ht; subst; [exact Ho|].
    apply status_callback_keeps_outcome, Ho.
Qed.

(** C2, amended: every event but the answer webhook keeps a terminal
    status terminal, over any sequence of events; the answer webhook sets
    [in-progress], which is not terminal, whatever the status was. *)
Theorem C2_terminal_until_answer_webhook (st : State) (l : nat) (s : Session) :
  heap st !! l = Some s ->
  (terminal (status s) ->
     forall evs, Forall (fun ev => negb (is_voice_start ev) = true) evs ->
       exists s', heap (run env st evs) !! l = Some s' /\ terminal (status s'))
  /\ (forall b, get st (CallSid b) = Some (l, s) ->
        exists s', heap (step env st (PostVoiceStart b)).2 !! l = Some s'
          /\ status s' = lit "in-progress" /\ ~ terminal (status s')).
Proof.
  intros H. split.
  - intros Hs evs Hall.
    apply (run_preserves (fun ev => negb (is_voice_start ev))
             (fun s' => terminal (status s')) touches_terminal evs st l s Hall H Hs).
  - intros b Hget. rewrite (step_voice_start st b l s Hget). cbn [snd].
    rewrite (heap_mutate_same st l _ s H).
    eexists. split; [reflexivity|]. split; [reflexivity|].
    unfold terminal, TERMINAL_STATUSES. simpl. intros Hin.
    apply list_elem_of_In in Hin. vm_compute in Hin. intuition discriminate.
Qed.


Lemma step_carrier_created st i params b sid now :
  inflight st !! i = Some (AwaitCarrier params b) ->
  step env st (CarrierSettles i (CallCreated sid) now)
  = (Some {| code := 200; body := CallJson sid (lit "calling") |},
     set sid (new_session b sid now) (resume i st)).
Proof. intros H. unfold step. rewrite H. reflexivity. Qed.

Lemma step_delegate_failed st i messages l baseUrl :
  inflight st !! i = Some (AwaitDelegate messages l baseUrl) ->
  step env st (DelegateSettles i Claude.ApiError)
  = (Some (xml [Say (Some alice) apology; Hangup]), mutate l delegate_failed (resume i st)).
Proof. intros H. unfold step. rewrite H. reflexivity. Qed.

(** C6: a request without one of the three required fields is answered
    with 400 and an error message, and nothing is asked of the carrier; with
    the fields but without the base URL it is answered with 500, again
    without a call; otherwise the call is requested, and once the carrier has
    created it the answer is 200 with the call identifier and the status
    [calling], and a new session is stored under that identifier. *)
Theorem C6_api_call_responses (st : State) (b : CallBody) :
  (required_fields b = false ->
     exists message,
       step env st (PostApiCall b) = (Some {| code := 400; body := ErrorJson message |}, st))
  /\ (required_fields b = true -> truthy (BASE_URL env) = false ->
     exists message,
       step env st (PostApiCall b) = (Some {| code := 500; body := ErrorJson message |}, st))
  /\ (required_fields b = true -> truthy (BASE_URL env) = true ->
     exists params,
       step env st (PostApiCall b) = (None, suspend (AwaitCarrier params b) st)
       /\ to params = to_string (body_hairdresserPhone b)
       /\ forall st1 i sid now,
            inflight st1 !! i = Some (AwaitCarrier params b) ->
            exists st2,
              step env st1 (CarrierSettles i (CallCreated sid) now)
              = (Some {| code := 200; body := CallJson sid (lit "calling") |}, st2)
              /\ heap st1 !! length (heap st1) = None
              /\ get st2 (Some sid) = Some (length (heap st1), new_session b sid now)
              /\ status (new_session b sid now) = lit "calling"
              /\ appointmentResult (new_session b sid now) = None).
Proof.
  unfold required_fields, step, api_call.
  destruct (truthy (body_hairdresserPhone b)), (truthy (body_customerName b)),
    (truthy (body_service b)); cbn [andb orb negb];
    (split; [|split]); try discriminate; intros _; eauto.
  - intros ->. cbn [negb]. eauto.
  - intros ->. cbn [negb]. eexists. split; [reflexivity|]. split; [reflexivity|].
    intros st1 i sid now Hi. eexists. split; [|split; [|split; [|split]]].
    + exact (step_carrier_created st1 i _ b sid now Hi).
    + apply lookup_ge_None_2. reflexivity.
    + apply (get_set (resume i st1)).
    + reflexivity.
    + reflexivity.
Qed.

Lemma callSessions_step st ev :
  callSessions (step env st ev).2 = callSessions st
  \/ exists sid l, callSessions (step env st ev).2 = <[sid := l]> (callSessions st).
Proof.
  destruct ev as [b|i r now|sid|b|b|i r|b|b]; simpl.
  - destruct (api_call env b); left; reflexivity.
  - destruct (inflight st !! i) as [[params b|? ? ?]|]; try (left; reflexivity).
    destruct r as [sid|message]; simpl; [right; eauto | left; reflexivity].
  - left; reflexivity.
  - unfold voice_start. destruct (get st (CallSid b)) as [[l' s0]|]; left; reflexivity.
  - unfold voice_gather. destruct (get st (CallSid b)) as [[l' s0]|]; left; reflexivity.
  - destruct (inflight st !! i) as [[? ?|msgs l' baseUrl]|]; try (left; reflexivity).
    unfold voice_gather_resume. destruct r; left; reflexivity.
  - unfold voice_no_input. destruct (get st (CallSid b)) as [[l' s0]|]; left; reflexivity.
  - unfold voice_status. simpl. destruct (get st (CallSid b)) as [[l' s0]|]; left; reflexivity.
Qed.

(** C7, amended: storing a session never fails: whether or not the call
    identifier is already there, the answer is 200 and the identifier then
    names the new session (one session per identifier at any time, the latest
    one); looking up an unknown identifier finds nothing, which the polling
    route reports as 404 and the voice webhooks answer without touching
    anything; and no event removes an identifier from the store. *)
Theorem C7_registry_set_get (st : State) :
  (forall i params b sid now,
     inflight st !! i = Some (AwaitCarrier params b) ->
     exists st',
       step env st (CarrierSettles i (CallCreated sid) now)
       = (Some {| code := 200; body := CallJson sid (lit "calling") |}, st')
       /\ get st' (Some sid) = Some (length (heap st), new_session b sid now))
  /\ (forall sid,
        callSessions st !! sid = None ->
        get st (Some sid) = None
        /\ get_call sid st = {| code := 404; body := ErrorJson (lit "Call not found") |}
        /\ forall b, CallSid b = Some sid ->
             step env st (PostVoiceStart b) = (Some unknown_call, st)
             /\ step env st (PostVoiceGather b) = (Some unknown_call, st)
             /\ (step env st (PostVoiceNoInput b)).2 = st
             /\ (step env st (PostVoiceStatus b)).2 = st)
  /\ (forall ev sid,
        is_Some (callSessions st !! sid) -> is_Some (callSessions (step env st ev).2 !! sid)).
Proof.
  split; [|split].
  - intros i params b sid now Hi. eexists. split.
    + exact (step_carrier_created st i params b sid now Hi).
    + apply (get_set (resume i st)).
  - intros sid Hsid. pose proof (get_None st sid Hsid) as Hget.
    split; [exact Hget|]. split; [unfold get_call; rewrite Hget; reflexivity|].
    intros b Hb. unfold step, voice_start, voice_gather, voice_no_input, voice_status.
    rewrite Hb, Hget. auto.
  - intros ev sid Hsid. destruct (callSessions_step st ev) as [->|(sid' & l & ->)].
    + exact Hsid.
    + rewrite lookup_insert_is_Some. destruct (decide (sid' = sid)); auto.
Qed.

(** C8, amended: for a known call a no-speech timeout is answered with one
    re-prompt (one [Gather]), the goodbye and the hang-up; in the same turn
    the session goes to [no-answer] with the outcome "No response from
    salon", unless its status is [completed], the one status that holds the
    transition back. *)
Theorem C8_no_input_reprompt_once (st : State) (b : VoiceBody) (l : nat) (s : Session) :
  get st (CallSid b) = Some (l, s) ->
  exists verbs st',
    step env st (PostVoiceNoInput b) = (Some (xml verbs), st')
    /\ verbs = [Gather (gather_options (BASE_URL env)) alice reprompt;
                Say (Some alice) goodbye; Hangup]
    /\ gathers verbs = 1%nat
    /\ (status s <> lit "completed" ->
        exists s', heap st' !! l = Some s'
          /\ status s' = lit "no-answer"
          /\ appointmentResult s'
             = Some {[ lit "confirmed" := JBool false;
                       lit "reason" := JStr (lit "No response from salon") ]})
    /\ (status s = lit "completed" -> heap st' !! l = Some s).
Proof.
  intros Hget. destruct (get_Some st _ l s Hget) as [H _].
  eexists _, _. split; [exact (step_voice_no_input st b l s Hget)|].
  split; [reflexivity|]. split; [reflexivity|].
  rewrite (heap_mutate_same st l _ s H). split.
  - intros Hne. eexists. split; [reflexivity|].
    unfold no_input. rewrite bool_decide_true by assumption. split; reflexivity.
  - intros Hs. rewrite (no_input_completed s Hs). reflexivity.
Qed.

(** C9: when the delegate call of a conversation turn fails, the handler
    still answers: the carrier is told to speak the apology and hang up, and
    the session goes to [failed] with the outcome "Technical error during
    call"; the apology is added to the transcript. *)
Theorem C9_delegate_failure_is_answered (st : State) (i : nat) (messages : list Turn)
    (l : nat) (baseUrl : option jsstring) (s : Session) :
  inflight st !! i = Some (AwaitDelegate messages l baseUrl) ->
  heap st !! l = Some s ->
  exists st' s',
    step env st (DelegateSettles i Claude.ApiError)
    = (Some (xml [Say (Some alice) apology; Hangup]), st')
    /\ heap st' !! l = Some s'
    /\ status s' = lit "failed"
    /\ appointmentResult s'
       = Some {[ lit "confirmed" := JBool false;
                 lit "reason" := JStr (lit "Technical error during call") ]}
    /\ transcript s' = transcript s ++ [assistant_turn apology].
Proof.
  intros Hi H. eexists _, _. split; [exact (step_delegate_failed st i messages l baseUrl Hi)|].
  split; [apply (heap_mutate_same (resume i st)), H|]. repeat split.
Qed.

End Handlers.


(** *** The theorems at sample calls *)

(** C1 fails as stated: a no-speech timeout gives the session the outcome
    "No response from salon" and the status [no-answer] while the re-prompt
    is still to be played; the salon answers it, the delegate confirms, and
    both the outcome and the terminal status are written again. *)
Lemma C1_counterexample :
  (status <$> session_of silent_call (lit "CA1")) = Some (lit "no-answer")
  /\ (appointmentResult <$> session_of silent_call (lit "CA1"))
     = Some (Some {[ lit "confirmed" := JBool false;
                     lit "reason" := JStr (lit "No response from salon") ]})
  /\ (status <$> session_of (run env0 silent_call confirm) (lit "CA1")) = Some (lit "completed")
  /\ (appointmentResult <$> session_of (run env0 silent_call confirm) (lit "CA1"))
     = Some (Some {[ lit "confirmed" := JBool true;
                     lit "date" := JStr (lit "Friday"); lit "time" := JStr (lit "3pm") ]}).
Proof. repeat split; vm_compute; reflexivity. Qed.

Lemma C1_completed_session_keeps_outcome_witness :
  exists s s',
    heap completed_call !! 0%nat = Some s
    /\ status s = lit "completed"
    /\ heap (run env0 completed_call
               [PostVoiceStatus (lifecycle "CA1" "failed"); PostVoiceNoInput (webhook "CA1")])
         !! 0%nat = Some s'
    /\ status s' = lit "completed"
    /\ appointmentResult s' = appointmentResult s.
Proof.
  assert (exists s, heap completed_call !! 0%nat = Some s /\ status s = lit "completed")
    as (s & H & Hs) by (eexists; split; vm_compute; reflexivity).
  destruct (C1_completed_session_keeps_outcome env0 completed_call 0 s H) as [Hfinal _].
  destruct (Hfinal Hs) as [Hrun _].
  destruct (Hrun [PostVoiceStatus (lifecycle "CA1" "failed"); PostVoiceNoInput (webhook "CA1")])
    as (s' & H' & Hs' & Ho'); [repeat constructor|].
  exists s, s'. auto.
Defined.

(** C2 fails as stated: the answer webhook sets [in-progress] without
    looking at the status, here on a call the carrier has reported busy. *)
Lemma C2_counterexample :
  (status <$> session_of busy_call (lit "CA1")) = Some (lit "busy")
  /\ terminal (lit "busy")
  /\ (status <$> session_of (run env0 busy_call [PostVoiceStart (webhook "CA1")]) (lit "CA1"))
     = Some (lit "in-progress")
  /\ ~ terminal (lit "in-progress").
Proof.
  split; [vm_compute; reflexivity|]. split; [|split; [vm_compute; reflexivity|]].
  - unfold terminal, TERMINAL_STATUSES. rewrite !elem_of_cons. tauto.
  - unfold terminal, TERMINAL_STATUSES. intros Hin.
    apply list_elem_of_In in Hin. vm_compute in Hin. intuition discriminate.
Qed.

Lemma C2_terminal_until_answer_webhook_witness :
  exists s s',
    heap busy_call !! 0%nat = Some s
    /\ terminal (status s)
    /\ heap (run env0 busy_call
               [PostVoiceNoInput (webhook "CA1"); PostVoiceStatus (lifecycle "CA1" "failed");
                GetApiCall (lit "CA1")])
         !! 0%nat = Some s'
    /\ terminal (status s').
Proof.
  assert (exists s, heap busy_call !! 0%nat = Some s /\ status s = lit "busy")
    as (s & H & Hs) by (eexists; split; vm_compute; reflexivity).
  assert (terminal (status s)) as Ht
    by (rewrite Hs; unfold terminal, TERMINAL_STATUSES; rewrite !elem_of_cons; tauto).
  destruct (C2_terminal_until_answer_webhook env0 busy_call 0 s H) as [Hkeep _].
  destruct (Hkeep Ht [PostVoiceNoInput (webhook "CA1"); PostVoiceStatus (lifecycle "CA1" "failed");
                      GetApiCall (lit "CA1")])
    as (s' & H' & Ht'); [repeat constructor|].
  exists s, s'. auto.
Defined.

Lemma C6_api_call_responses_witness :
  (exists message,
     step env0 initial (PostApiCall nameless)
     = (Some {| code := 400; body := ErrorJson message |}, initial))
  /\ (exists message,
     step no_base_url initial (PostApiCall alex)
     = (Some {| code := 500; body := ErrorJson message |}, initial))
  /\ (exists st1 st2,
     step env0 initial (PostApiCall alex) = (None, st1)
     /\ step env0 st1 (CarrierSettles 0 (CallCreated (lit "CA1")) 7)
        = (Some {| code := 200; body := CallJson (lit "CA1") (lit "calling") |}, st2)
     /\ session_of st2 (lit "CA1") = Some (new_session alex (lit "CA1") 7)).
Proof.
  split; [|split].
  - destruct (C6_api_call_responses env0 initial nameless) as [H _]. apply H. reflexivity.
  - destruct (C6_api_call_responses no_base_url initial alex) as (_ & H & _).
    apply H; reflexivity.
  - destruct (C6_api_call_responses env0 initial alex) as (_ & _ & H).
    destruct H as (params & Hstep & _ & Hsettle); [reflexivity | reflexivity |].
    destruct (Hsettle (suspend (AwaitCarrier params alex) initial) 0%nat (lit "CA1") 7)
      as (st2 & Hstep2 & _ & Hget & _); [reflexivity|].
    exists (suspend (AwaitCarrier params alex) initial), st2.
    split; [exact Hstep|]. split; [exact Hstep2|].
    unfold session_of. rewrite Hget. reflexivity.
Defined.

(** C7 fails as stated: the carrier names a second call like a first one,
    and the second session takes the place of the first, with the answer
    200. *)
Lemma C7_counterexample :
  let st := run env0 initial
              [PostApiCall alex; CarrierSettles 0 (CallCreated (lit "CA1")) 7;
               PostApiCall blake] in
  session_of st (lit "CA1") = Some (new_session alex (lit "CA1") 7)
  /\ exists st',
       step env0 st (CarrierSettles 0 (CallCreated (lit "CA1")) 9)
       = (Some {| code := 200; body := CallJson (lit "CA1") (lit "calling") |}, st')
       /\ session_of st' (lit "CA1") = Some (new_session blake (lit "CA1") 9).
Proof.
  cbn zeta. split; [vm_compute; reflexivity|].
  eexists. split; [reflexivity|]. vm_compute. reflexivity.
Qed.

Lemma C7_registry_set_get_witness :
  (exists st',
     step env0 (run env0 answered_call [PostApiCall blake])
       (CarrierSettles 0 (CallCreated (lit "CA1")) 9)
     = (Some {| code := 200; body := CallJson (lit "CA1") (lit "calling") |}, st')
     /\ get st' (Some (lit "CA1")) = Some (1%nat, new_session blake (lit "CA1") 9))
  /\ get_call (lit "CA2") answered_call
     = {| code := 404; body := ErrorJson (lit "Call not found") |}
  /\ is_Some (callSessions (step env0 answered_call (PostVoiceStatus (lifecycle "CA1" "failed"))).2
                !! lit "CA1").
Proof.
  destruct (C7_registry_set_get env0 (run env0 answered_call [PostApiCall blake]))
    as (Hset & _ & _).
  destruct (C7_registry_set_get env0 answered_call) as (_ & Hget & Hkeep).
  split; [|split].
  - eapply Hset. vm_compute. reflexivity.
  - apply Hget. vm_compute. reflexivity.
  - apply Hkeep. vm_compute. eauto.
Defined.

(** C8 fails as stated: the no-speech timeout only spares a completed
    session; on a call that the carrier has reported busy, a terminal status,
    it writes [no-answer] and a new outcome. *)
Lemma C8_counterexample :
  (status <$> session_of busy_call (lit "CA1")) = Some (lit "busy")
  /\ terminal (lit "busy")
  /\ (appointmentResult <$> session_of busy_call (lit "CA1"))
     = Some (Some {[ lit "confirmed" := JBool false; lit "reason" := JStr (lit "Call busy") ]})
  /\ (status <$> session_of (run env0 busy_call [PostVoiceNoInput (webhook "CA1")]) (lit "CA1"))
     = Some (lit "no-answer")
  /\ (appointmentResult
        <$> session_of (run env0 busy_call [PostVoiceNoInput (webhook "CA1")]) (lit "CA1"))
     = Some (Some {[ lit "confirmed" := JBool false;
                     lit "reason" := JStr (lit "No response from salon") ]}).
Proof.
  split; [vm_compute; reflexivity|]. split; [|repeat split; vm_compute; reflexivity].
  unfold terminal, TERMINAL_STATUSES. rewrite !elem_of_cons. tauto.
Qed.

Lemma C8_no_input_reprompt_once_witness :
  exists verbs st' s',
    step env0 answered_call (PostVoiceNoInput (webhook "CA1")) = (Some (xml verbs), st')
    /\ gathers verbs = 1%nat
    /\ heap st' !! 0%nat = Some s'
    /\ status s' = lit "no-answer"
    /\ appointmentResult s'
       = Some {[ lit "confirmed" := JBool false;
                 lit "reason" := JStr (lit "No response from salon") ]}.
Proof.
  assert (exists s, get answered_call (CallSid (webhook "CA1")) = Some (0%nat, s)
                    /\ status s = lit "in-progress")
    as (s & Hget & Hs) by (eexists; split; vm_compute; reflexivity).
  destruct (C8_no_input_reprompt_once env0 answered_call (webhook "CA1") 0 s Hget)
    as (verbs & st' & Hstep & _ & Hone & Hfire & _).
  destruct Hfire as (s' & H' & Hs' & Ho'); [rewrite Hs; discriminate|].
  exists verbs, st', s'. auto.
Defined.

Lemma C9_delegate_failure_is_answered_witness :
  let st := run env0 answered_call [PostVoiceGather (speech "CA1" "Hello, who is this?")] in
  exists st' s',
    step env0 st (DelegateSettles 0 Claude.ApiError)
    = (Some (xml [Say (Some alice) apology; Hangup]), st')
    /\ heap st' !! 0%nat = Some s'
    /\ status s' = lit "failed"
    /\ appointmentResult s'
       = Some {[ lit "confirmed" := JBool false;
                 lit "reason" := JStr (lit "Technical error during call") ]}.
Proof.
  cbn zeta.
  set (st := run env0 answered_call [PostVoiceGather (speech "CA1" "Hello, who is this?")]).
  assert (exists messages baseUrl s,
            inflight st !! 0%nat = Some (AwaitDelegate messages 0 baseUrl)
            /\ heap st !! 0%nat = Some s /\ status s = lit "in-progress")
    as (messages & baseUrl & s & Hi & H & _)
    by (eexists _, _, _; repeat split; vm_compute; reflexivity).
  destruct (C9_delegate_failure_is_answered env0 st 0 messages 0 baseUrl s Hi H)
    as (st' & s' & Hstep & H' & Hs' & Ho' & _).
  exists st', s'. auto.
Defined.

End ServerProps.

(** ** More on strings and on the delegate wrapper *)
Module ClaudeMore.

Import JS Json Claude JSFacts Samples MoreSamples ClaudeProps.
Local Open Scope N_scope.

Lemma cut_from_line_prefix marker s : exists rest, s = cut_from_line marker s ++ rest.
Proof.
  induction s as [|c s [rest IH]]; simpl; [exists []; reflexivity|].
  destruct ((c =? newline) && startsWith s marker).
  - exists (c :: s). reflexivity.
  - exists rest. simpl. congruence.
Qed.

Lemma startsWith_app s rest p : startsWith s p = true -> startsWith (s ++ rest) p = true.
Proof.
  rewrite !startsWith_true. intros [r ->]. exists (r ++ rest). rewrite app_assoc. reflexivity.
Qed.

Lemma cut_from_line_clean marker s :
  includes (cut_from_line marker s) (newline :: marker) = false.
Proof.
  induction s as [|c s IH]; simpl; [reflexivity|].
  destruct ((c =? newline) && startsWith s marker) eqn:E; [reflexivity|].
  cbn [includes]. rewrite IH, orb_false_r. unfold startsWith at 1. cbn [strip_prefix].
  destruct (newline =? c) eqn:Hc; [|reflexivity].
  apply N.eqb_eq in Hc. subst c. rewrite N.eqb_refl in E. cbn [andb] in E.
  destruct (strip_prefix marker (cut_from_line marker s)) as [r|] eqn:Er; [|reflexivity].
  destruct (cut_from_line_prefix marker s) as [rest Hrest].
  assert (startsWith (cut_from_line marker s ++ rest) marker = true) as H.
  { apply startsWith_app. unfold startsWith. rewrite Er. reflexivity. }
  rewrite <- Hrest in H. congruence.
Qed.

Lemma includes_trim_false s p : includes s p = false -> includes (trim s) p = false.
Proof.
  intros H. destruct (includes (trim s) p) eqn:E; [|reflexivity].
  destruct (trim_split s) as (a & b & Es & _).
  rewrite Es, (includes_app_mono a (trim s) b p E) in H. discriminate.
Qed.

Lemma all_space_rev b : all_space b -> all_space (rev b).
Proof. apply List.Forall_rev. Qed.

Lemma trimEnd_app_spaces x b : all_space b -> trimEnd (x ++ b) = trimEnd x.
Proof.
  intros Hb. unfold trimEnd. rewrite rev_app_distr.
  rewrite trimStart_all_space by (apply all_space_rev, Hb). reflexivity.
Qed.

Lemma trim_app_spaces a s b : all_space a -> all_space b -> trim (a ++ s ++ b) = trim s.
Proof.
  intros Ha Hb. unfold trim. rewrite trimStart_all_space by assumption.
  rewrite trimStart_app_spaces by assumption.
  destruct (trimStart s) as [|c r] eqn:E.
  - reflexivity.
  - apply (trimEnd_app_spaces (c :: r) b Hb).
Qed.

(** Every outcome of [parseReply] has a member [confirmed]. *)
Lemma outcome_has_confirmed (b : bool) (payload : jsstring) :
  is_Some ((match Json.parse payload with
            | Some data => own_props data ∪ {[ lit "confirmed" := JBool b ]}
            | None => {[ lit "confirmed" := JBool b; lit "raw" := JStr payload ]}
            end : gmap jsstring json) !! lit "confirmed").
Proof.
  destruct (Json.parse payload) as [data|].
  - apply lookup_union_is_Some. right. rewrite lookup_singleton_eq. eauto.
  - rewrite lookup_insert_eq. eauto.
Qed.

Lemma parseReply_cases text :
  (exists p, marker_match CONFIRMED text = Some p)
  \/ (marker_match CONFIRMED text = None /\ exists p, marker_match FAILED text = Some p)
  \/ (marker_match CONFIRMED text = None /\ marker_match FAILED text = None).
Proof.
  destruct (marker_match CONFIRMED text); [eauto|].
  destruct (marker_match FAILED text); eauto.
Qed.


(** The reply is terminal exactly when it has an outcome, and exactly when
    the text holds a marker; every outcome has a member [confirmed]. *)
Theorem parseReply_terminal_iff_outcome (text : jsstring) :
  (isComplete (parseReply text) = true <-> is_Some (appointmentResult (parseReply text)))
  /\ (isComplete (parseReply text) = true <->
      has_marker CONFIRMED text \/ has_marker FAILED text)
  /\ (forall o, appointmentResult (parseReply text) = Some o ->
        is_Some (o !! lit "confirmed")).
Proof.
  rewrite <- !marker_match_is_Some.
  destruct (parseReply_cases text) as [[p Hc]|[[Hc [p Hf]]|[Hc Hf]]].
  - rewrite (parseReply_confirmed _ _ Hc), Hc. simpl. repeat split; eauto.
    intros o [= <-]. apply outcome_has_confirmed.
  - rewrite (parseReply_failed _ _ Hc Hf), Hc, Hf. simpl. repeat split; eauto.
    intros o [= <-]. apply outcome_has_confirmed.
  - rewrite (parseReply_plain _ Hc Hf), Hc, Hf. simpl. repeat split; try discriminate.
    + intros [? [=]].
    + intros [[? [=]]|[? [=]]].
Qed.

Lemma parseReply_terminal_iff_outcome_witness :
  isComplete (parseReply both_markers_text) = true
  /\ exists o, appointmentResult (parseReply both_markers_text) = Some o
       /\ is_Some (o !! lit "confirmed").
Proof.
  destruct (parseReply_terminal_iff_outcome both_markers_text) as (Hiff & Hmark & Hconf).
  assert (isComplete (parseReply both_markers_text) = true) as Hc.
  { apply Hmark. left. apply marker_match_is_Some. vm_compute. eauto. }
  split; [exact Hc|]. destruct (proj1 Hiff Hc) as [o Ho]. eauto.
Defined.

(** The spoken text is trimmed, and once a marker was found it holds no
    line that starts with that marker. *)
Theorem response_trimmed_and_stripped (text : jsstring) :
  trim (response (parseReply text)) = response (parseReply text)
  /\ (has_marker CONFIRMED text ->
      includes (response (parseReply text)) (newline :: CONFIRMED) = false)
  /\ (~ has_marker CONFIRMED text -> has_marker FAILED text ->
      includes (response (parseReply text)) (newline :: FAILED) = false).
Proof.
  rewrite <- marker_match_None, <- !marker_match_is_Some.
  destruct (parseReply_cases text) as [[p Hc]|[[Hc [p Hf]]|[Hc Hf]]].
  - rewrite (parseReply_confirmed _ _ Hc), Hc. simpl. split; [apply trim_idem|]. split.
    + intros _. apply includes_trim_false, cut_from_line_clean.
    + intros [=].
  - rewrite (parseReply_failed _ _ Hc Hf), Hc. simpl. split; [apply trim_idem|]. split.
    + intros [? [=]].
    + intros _ _. apply includes_trim_false, cut_from_line_clean.
  - rewrite (parseReply_plain _ Hc Hf), Hc, Hf. simpl. split; [apply trim_idem|]. split.
    + intros [? [=]].
    + intros _ [? [=]].
Qed.

Lemma response_trimmed_and_stripped_witness :
  includes (response (parseReply both_markers_text)) (newline :: CONFIRMED) = false
  /\ includes (response (parseReply malformed_failed_text)) (newline :: FAILED) = false.
Proof.
  split.
  - destruct (response_trimmed_and_stripped both_markers_text) as (_ & H & _). apply H.
    apply marker_match_is_Some. vm_compute. eauto.
  - destruct (response_trimmed_and_stripped malformed_failed_text) as (_ & _ & H). apply H.
    + apply marker_match_None. vm_compute. reflexivity.
    + apply marker_match_is_Some. vm_compute. eauto.
Defined.

(** White space around the text of the message never matters. *)
Theorem parseReply_ignores_outer_space (before text after : jsstring) :
  all_space before -> all_space after ->
  parseReply (before ++ text ++ after) = parseReply text.
Proof.
  intros Ha Hb. unfold parseReply. rewrite (trim_app_spaces before text after Ha Hb).
  reflexivity.
Qed.

Lemma parseReply_ignores_outer_space_witness :
  parseReply (lit "  " ++ both_markers_text ++ [newline; 32]) = parseReply both_markers_text.
Proof.
  apply parseReply_ignores_outer_space; unfold all_space; repeat constructor.
Defined.

(** Every member of a payload that is JSON reaches the outcome unchanged,
    and besides [confirmed] the outcome has no other member; under the FAILED
    marker [confirmed] is false unless the payload says otherwise. *)
Theorem payload_members_reach_outcome (text payload : jsstring) (data : json) :
  Json.parse payload = Some data ->
  (marker_match CONFIRMED text = Some payload ->
     exists o, appointmentResult (parseReply text) = Some o
       /\ (forall k v, own_props data !! k = Some v -> o !! k = Some v)
       /\ (forall k, k <> lit "confirmed" -> o !! k = own_props data !! k))
  /\ (marker_match CONFIRMED text = None -> marker_match FAILED text = Some payload ->
     exists o, appointmentResult (parseReply text) = Some o
       /\ (forall k v, own_props data !! k = Some v -> o !! k = Some v)
       /\ (forall k, k <> lit "confirmed" -> o !! k = own_props data !! k)
       /\ (own_props data !! lit "confirmed" = None ->
           o !! lit "confirmed" = Some (JBool false))).
Proof.
  intros Hdata.
  assert (forall b k v, own_props data !! k = Some v ->
            (own_props data ∪ {[ lit "confirmed" := JBool b ]}) !! k = Some v) as Hl.
  { intros b k v Hk. apply lookup_union_Some_l, Hk. }
  assert (forall b k, k <> lit "confirmed" ->
            (own_props data ∪ {[ lit "confirmed" := JBool b ]}) !! k = own_props data !! k) as Hr.
  { intros b k Hk. rewrite lookup_union_l; [reflexivity|].
    apply lookup_singleton_ne. congruence. }
  split.
  - intros Hc. rewrite (parseReply_confirmed _ _ Hc), Hdata. simpl.
    eexists. split; [reflexivity|]. split; [apply Hl | apply Hr].
  - intros Hc Hf. rewrite (parseReply_failed _ _ Hc Hf), Hdata. simpl.
    eexists. split; [reflexivity|]. split; [apply Hl|]. split; [apply Hr|].
    intros Hno. rewrite lookup_union_r by exact Hno. apply lookup_singleton_eq.
Qed.

Lemma payload_members_reach_outcome_witness :
  exists o, appointmentResult (parseReply failed_text) = Some o
    /\ o !! lit "reason" = Some (JStr (lit "fully booked"))
    /\ o !! lit "confirmed" = Some (JBool false).
Proof.
  destruct (payload_members_reach_outcome failed_text (quoted "{'reason': 'fully booked'}")
              (JObj {[ lit "reason" := JStr (lit "fully booked") ]}))
    as [_ H]; [vm_compute; reflexivity|].
  destruct H as (o & Ho & Hall & _ & Hconf); [vm_compute; reflexivity ..|].
  exists o. split; [exact Ho|]. split.
  - apply Hall. vm_compute. reflexivity.
  - apply Hconf. vm_compute. reflexivity.
Defined.

(** The payload an expression finds runs from the first opening brace
    after the marker to the first closing brace after it: it has no closing
    brace inside, so a payload with a nested object is cut short. *)
Theorem payload_ends_at_first_brace (marker s payload : jsstring) :
  marker_match marker s = Some payload ->
  exists pre ws body post,
    s = pre ++ marker ++ ws ++ lbrace :: body ++ rbrace :: post
    /\ all_space ws /\ (rbrace ∉ body) /\ payload = lbrace :: body ++ [rbrace].
Proof.
  induction s as [|c s IH]; simpl.
  - destruct (marker_at marker []) as [p|] eqn:E; [|discriminate]. intros [= <-].
    apply marker_at_Some in E. destruct E as (ws & body & post & E & H).
    exists [], ws, body, post. split; [exact E | exact H].
  - destruct (marker_at marker (c :: s)) as [p|] eqn:E.
    + intros [= <-]. apply marker_at_Some in E. destruct E as (ws & body & post & E & H).
      exists [], ws, body, post. split; [exact E | exact H].
    + intros H. destruct (IH H) as (pre & ws & body & post & -> & H').
      exists (c :: pre), ws, body, post. split; [reflexivity | exact H'].
Qed.

Lemma payload_ends_at_first_brace_witness :
  marker_match CONFIRMED nested_text
  = Some (quoted "{'date': 'Friday', 'stylist': {'name': 'Sam'}")
  /\ exists pre ws body post,
       nested_text = pre ++ CONFIRMED ++ ws ++ lbrace :: body ++ rbrace :: post
       /\ all_space ws /\ (rbrace ∉ body)
       /\ quoted "{'date': 'Friday', 'stylist': {'name': 'Sam'}" = lbrace :: body ++ [rbrace].
Proof.
  assert (marker_match CONFIRMED nested_text
          = Some (quoted "{'date': 'Friday', 'stylist': {'name': 'Sam'}")) as H
    by (vm_compute; reflexivity).
  split; [exact H|]. exact (payload_ends_at_first_brace _ _ _ H).
Defined.

End ClaudeMore.

(** ** The page script *)
Module ClientProps.

Import JS Json Server Client Samples MoreSamples.
Local Open Scope N_scope.

Lemma replace_all_app c r x y :
  replace_all c r (x ++ y) = replace_all c r x ++ replace_all c r y.
Proof. apply flat_map_app. Qed.

Lemma escape_char_spec c :
  (c = 38 /\ escape_char c = [38; 97; 109; 112; 59])
  \/ (c = 60 /\ escape_char c = [38; 108; 116; 59])
  \/ (c = 62 /\ escape_char c = [38; 103; 116; 59])
  \/ (c = 34 /\ escape_char c = [38; 113; 117; 111; 116; 59])
  \/ (c <> 38 /\ c <> 60 /\ c <> 62 /\ c <> 34 /\ escape_char c = [c]).
Proof.
  unfold escape_char.
  destruct (N.eqb_spec c 38); [auto|].
  destruct (N.eqb_spec c 60); [auto|].
  destruct (N.eqb_spec c 62); [auto 6|].
  destruct (N.eqb_spec c 34); [auto 6|]. auto 10.
Qed.

Lemma replace_all_one c r x : replace_all c r [x] = if x =? c then r else [x].
Proof. unfold replace_all. simpl. apply app_nil_r. Qed.

(** The four replacements in a row, on one character. *)
Lemma escape_one c :
  replace_all 34 (lit "&quot;")
    (replace_all 62 (lit "&gt;")
       (replace_all 60 (lit "&lt;") (replace_all 38 (lit "&amp;") [c])))
  = escape_char c.
Proof.
  destruct (escape_char_spec c) as [[-> ->]|[[-> ->]|[[-> ->]|[[-> ->]|(H1 & H2 & H3 & H4 & ->)]]]];
    try reflexivity.
  apply N.eqb_neq in H1, H2, H3, H4.
  rewrite replace_all_one, H1, replace_all_one, H2, replace_all_one, H3, replace_all_one, H4.
  reflexivity.
Qed.

Lemma escape_all s :
  replace_all 34 (lit "&quot;")
    (replace_all 62 (lit "&gt;")
       (replace_all 60 (lit "&lt;") (replace_all 38 (lit "&amp;") s)))
  = flat_map escape_char s.
Proof.
  induction s as [|c s IH]; [reflexivity|].
  change (c :: s) with ([c] ++ s). rewrite !replace_all_app, IH, escape_one. reflexivity.
Qed.

Lemma escapeHtml_flat_map s : escapeHtml (Some s) = flat_map escape_char s.
Proof.
  unfold escapeHtml. destruct s as [|c s]; [reflexivity|].
  cbn [truthy to_string]. apply escape_all.
Qed.

Lemma occurrences_app c x y : occurrences c (x ++ y) = (occurrences c x + occurrences c y)%nat.
Proof. unfold occurrences. rewrite List.filter_app, length_app. reflexivity. Qed.

Lemma occurrences_cons_ne c x s : c <> x -> occurrences c (x :: s) = occurrences c s.
Proof.
  intros H. unfold occurrences. simpl. apply N.eqb_neq in H. rewrite H. reflexivity.
Qed.

Lemma escape_char_no_markup x :
  occurrences 60 (escape_char x) = 0%nat
  /\ occurrences 62 (escape_char x) = 0%nat
  /\ occurrences 34 (escape_char x) = 0%nat.
Proof.
  destruct (escape_char_spec x) as [[-> ->]|[[-> ->]|[[-> ->]|[[-> ->]|(H1 & H2 & H3 & H4 & ->)]]]];
    try (repeat split; reflexivity).
  repeat split; rewrite occurrences_cons_ne by congruence; reflexivity.
Qed.

Lemma flat_map_no_markup s :
  occurrences 60 (flat_map escape_char s) = 0%nat
  /\ occurrences 62 (flat_map escape_char s) = 0%nat
  /\ occurrences 34 (flat_map escape_char s) = 0%nat.
Proof.
  induction s as [|x s (IH1 & IH2 & IH3)]; [repeat split; reflexivity|].
  cbn [flat_map]. rewrite !occurrences_app, IH1, IH2, IH3.
  destruct (escape_char_no_markup x) as (-> & -> & ->). repeat split; reflexivity.
Qed.

Lemma escapeHtml_no_markup str :
  occurrences 60 (escapeHtml str) = 0%nat
  /\ occurrences 62 (escapeHtml str) = 0%nat
  /\ occurrences 34 (escapeHtml str) = 0%nat.
Proof.
  destruct str as [s|]; [|repeat split; reflexivity].
  rewrite escapeHtml_flat_map. apply flat_map_no_markup.
Qed.

(** [escapeHtml] escapes each character on its own, as if in one pass:
    the ampersand of an entity it has written is not escaped again, while an
    entity already in the text is; and the result has no angle bracket and no
    quotation mark.  Nothing, or the empty string, gives the empty string. *)
Theorem escapeHtml_one_pass_no_markup (str : option jsstring) :
  escapeHtml str = flat_map escape_char (match str with Some s => s | None => [] end)
  /\ occurrences 60 (escapeHtml str) = 0%nat
  /\ occurrences 62 (escapeHtml str) = 0%nat
  /\ occurrences 34 (escapeHtml str) = 0%nat.
Proof.
  split; [|apply escapeHtml_no_markup].
  destruct str as [s|]; [apply escapeHtml_flat_map | reflexivity].
Qed.

Lemma flat_map_escape_inj a b :
  flat_map escape_char a = flat_map escape_char b -> a = b.
Proof.
  revert b. induction a as [|x a IH]; intros [|y b]; cbn [flat_map].
  - reflexivity.
  - destruct (escape_char_spec y) as [[-> ->]|[[-> ->]|[[-> ->]|[[-> ->]|(_ & _ & _ & _ & ->)]]]];
      discriminate.
  - destruct (escape_char_spec x) as [[-> ->]|[[-> ->]|[[-> ->]|[[-> ->]|(_ & _ & _ & _ & ->)]]]];
      discriminate.
  - destruct (escape_char_spec x) as [[-> ->]|[[-> ->]|[[-> ->]|[[-> ->]|(X1 & X2 & X3 & X4 & ->)]]]];
    destruct (escape_char_spec y) as [[-> ->]|[[-> ->]|[[-> ->]|[[-> ->]|(Y1 & Y2 & Y3 & Y4 & ->)]]]];
      cbn [app]; intros H; try discriminate H;
      try (injection H as H; f_equal; apply IH, H);
      try (injection H as H _; congruence).
    injection H as -> H. f_equal. apply IH, H.
Qed.

(** Distinct texts never escape to the same text: the escaped text tells
    what the text was. *)
Theorem escapeHtml_injective (a b : jsstring) :
  escapeHtml (Some a) = escapeHtml (Some b) -> a = b.
Proof.
  intros H. rewrite !escapeHtml_flat_map in H. revert H. apply flat_map_escape_inj.
Qed.

Lemma escapeHtml_injective_witness :
  lit "a < b" = lit "a < b"
  /\ escapeHtml (Some (lit "<")) <> escapeHtml (Some (lit "&lt;")).
Proof.
  split.
  - apply escapeHtml_injective. reflexivity.
  - intros H. apply escapeHtml_injective in H. discriminate H.
Defined.


Lemma foldl_append {A} (f : A -> jsstring) (acc : jsstring) (l : list A) :
  foldl (fun html x => html ++ f x) acc l = acc ++ flat_map f l.
Proof.
  revert acc. induction l as [|x l IH]; intros acc; simpl.
  - symmetry. apply app_nil_r.
  - rewrite IH, app_assoc. reflexivity.
Qed.

Lemma turn_html_markup turn :
  occurrences 60 (turn_html turn) = 6%nat
  /\ occurrences 62 (turn_html turn) = 6%nat
  /\ occurrences 34 (turn_html turn) = 6%nat.
Proof.
  unfold turn_html. cbn zeta. rewrite !occurrences_app.
  destruct (escapeHtml_no_markup (Some (content turn))) as (-> & -> & ->).
  destruct (bool_decide (role turn = lit "assistant")); repeat split; reflexivity.
Qed.

Lemma flat_map_turn_markup transcript :
  occurrences 60 (flat_map turn_html transcript) = (6 * length transcript)%nat
  /\ occurrences 62 (flat_map turn_html transcript) = (6 * length transcript)%nat
  /\ occurrences 34 (flat_map turn_html transcript) = (6 * length transcript)%nat.
Proof.
  induction transcript as [|turn transcript (IH1 & IH2 & IH3)]; [repeat split; reflexivity|].
  cbn [flat_map length]. rewrite !occurrences_app, IH1, IH2, IH3.
  destruct (turn_html_markup turn) as (-> & -> & ->). repeat split; lia.
Qed.

(** The markup of the rendered transcript is the page's own: whatever the
    turns say, the HTML has six opening angle brackets, six closing ones and
    six quotation marks per turn (two of each in the placeholder of an empty
    transcript), so no turn can bring in a tag or an attribute. *)
Theorem renderTranscript_markup_is_fixed (transcript : list Turn) :
  let n := match transcript with [] => 2%nat | _ :: _ => (6 * length transcript)%nat end in
  occurrences 60 (renderTranscript transcript) = n
  /\ occurrences 62 (renderTranscript transcript) = n
  /\ occurrences 34 (renderTranscript transcript) = n.
Proof.
  destruct transcript as [|turn transcript]; [repeat split; reflexivity|].
  cbn zeta. unfold renderTranscript. rewrite foldl_append. cbn [app].
  apply flat_map_turn_markup.
Qed.

(** What the page posts passes the server's check of the required fields:
    a submitted form is never answered with 400, and the name, the phone
    number and the optional fields arrive trimmed.  The form is held back
    exactly when the name or the phone number is blank or the service is
    empty. *)
Theorem submitted_form_is_never_rejected (f : Form) :
  match submit f with
  | Some b =>
      required_fields b = true
      /\ body_customerName b = Some (trim (form_customerName f))
      /\ body_hairdresserPhone b = Some (trim (form_hairdresserPhone f))
      /\ body_service b = Some (form_service f)
      /\ forall env r, api_call env b = Respond r ->
           code r = 500 /\ truthy (BASE_URL env) = false
  | None =>
      trim (form_customerName f) = [] \/ trim (form_hairdresserPhone f) = []
      \/ form_service f = []
  end.
Proof.
  unfold submit. cbn [body_customerName body_hairdresserPhone body_service].
  destruct (trim (form_customerName f)) as [|c1 n] eqn:E1; [left; reflexivity|].
  destruct (trim (form_hairdresserPhone f)) as [|c2 p] eqn:E2; [right; left; reflexivity|].
  destruct (form_service f) as [|c3 v] eqn:E3; [right; right; reflexivity|].
  cbn [truthy negb orb]. do 4 (split; [reflexivity|]).
  intros env r. unfold api_call, required_fields.
  cbn [body_customerName body_hairdresserPhone body_service truthy negb orb].
  destruct (truthy (BASE_URL env)); [discriminate|].
  cbn [negb]. intros [= <-]. split; reflexivity.
Qed.

Lemma submitted_form_is_never_rejected_witness :
  exists b, submit alex_form = Some b
    /\ required_fields b = true
    /\ body_customerName b = Some (lit "Alex")
    /\ forall r, api_call env0 b = Respond r -> code r = 500.
Proof.
  pose proof (submitted_form_is_never_rejected alex_form) as H.
  destruct (submit alex_form) as [b|] eqn:E.
  - destruct H as (H1 & H2 & _ & _ & H5). exists b. split; [reflexivity|].
    split; [exact H1|]. split; [rewrite H2; vm_compute; reflexivity|].
    intros r Hr. apply (H5 env0 r Hr).
  - vm_compute in E. discriminate E.
Defined.

End ClientProps.

(** ** The instructions for the delegate *)
Module PromptProps.

Import JS Json Server Prompt.
Local Open Scope N_scope.

Lemma concat_split {A} (k : nat) (l : list (list A)) :
  concat l = concat (firstn k l) ++ concat (skipn k l).
Proof. rewrite <- concat_app, firstn_skipn. reflexivity. Qed.

(** A run of pieces of a concatenation is part of the whole. *)
Lemma includes_pieces (k n : nat) (l : list jsstring) :
  includes (concat l) (concat (firstn n (skipn k l))) = true.
Proof.
  apply JSFacts.includes_true.
  exists (concat (firstn k l)), (concat (skipn n (skipn k l))).
  rewrite (concat_split k l) at 1. rewrite (concat_split n (skipn k l)) at 1. reflexivity.
Qed.


Lemma or_flexible_or_else v :
  or_flexible (or_else v []) = if truthy v then to_string v else lit "flexible".
Proof. destruct v as [[|c s]|]; reflexivity. Qed.

(** The instructions built for a session quote the greeting the session
    holds, the one [/voice/start] speaks; they give the preferred date and
    time as posted, or [flexible] where the request had none; and the two
    marker formats they teach are formats the detection expressions find. *)
Theorem prompt_tells_the_session (b : CallBody) (sid : jsstring) (now : N) :
  let s := new_session b sid now in
  let prompt := createSystemPrompt (userPreferences s) (initialGreeting s) in
  includes prompt (dq ++ initialGreeting s ++ dq ++ nl) = true
  /\ includes prompt
       (lit "- Preferred date: "
        ++ (if truthy (body_preferredDate b) then to_string (body_preferredDate b)
            else lit "flexible") ++ nl) = true
  /\ includes prompt
       (lit "- Preferred time: "
        ++ (if truthy (body_preferredTime b) then to_string (body_preferredTime b)
            else lit "flexible") ++ nl) = true
  /\ has_marker Claude.CONFIRMED prompt
  /\ has_marker Claude.FAILED prompt.
Proof.
  cbn zeta. rewrite <- !or_flexible_or_else.
  set (s := new_session b sid now).
  change (or_else (body_preferredDate b) []) with (preferredDate (userPreferences s)).
  change (or_else (body_preferredTime b) []) with (preferredTime (userPreferences s)).
  generalize (userPreferences s) (initialGreeting s). clear s. intros prefs greeting.
  unfold createSystemPrompt.
  match goal with |- context [concat ?l] => set (pieces := l) end.
  split; [exact (includes_pieces 9 4 pieces)|].
  split; [exact (includes_pieces 25 3 pieces)|].
  split; [exact (includes_pieces 28 3 pieces)|].
  split.
  - exists (concat (firstn 63 pieces)), [32], (concat (firstn 31 (skipn 64 pieces))),
      (concat (skipn 32 (skipn 64 pieces))).
    split; [|repeat constructor].
    rewrite (concat_split 63 pieces) at 1. reflexivity.
  - exists (concat (firstn 100 pieces)), [32], (concat (firstn 7 (skipn 101 pieces))),
      (concat (skipn 8 (skipn 101 pieces))).
    split; [|repeat constructor].
    rewrite (concat_split 100 pieces) at 1. reflexivity.
Qed.

End PromptProps.

(** ** The process as a whole *)
Module ProcessProps.

Import JS Json Server Process JSFacts ClaudeProps ServerProps Samples MoreSamples.
Local Open Scope N_scope.

Section Process.

Variable env : Env.

Lemma run_app st evs evs' : run env st (evs ++ evs') = run env (run env st evs) evs'.
Proof. unfold run. apply foldl_app. Qed.

Lemma reachable_run st evs : reachable env st -> reachable env (run env st evs).
Proof. intros [evs0 ->]. exists (evs0 ++ evs). symmetry. apply run_app. Qed.

Lemma reachable_induction (Q : State -> Prop) :
  Q initial ->
  (forall st ev, reachable env st -> Q st -> Q (step env st ev).2) ->
  forall st, reachable env st -> Q st.
Proof.
  intros Hinit Hstep st [evs ->]. induction evs as [|ev evs IH] using rev_ind.
  - exact Hinit.
  - rewrite run_app. apply Hstep; [exists evs; reflexivity | exact IH].
Qed.

(** A turn of the event loop either creates one session object, bound to
    its call identifier, or leaves the number of objects and the bindings as
    they are. *)
Lemma step_creates st ev :
  match creates st ev with
  | Some (sid, s) =>
      heap (step env st ev).2 = heap st ++ [s]
      /\ callSessions (step env st ev).2 = <[sid := length (heap st)]> (callSessions st)
  | None =>
      length (heap (step env st ev).2) = length (heap st)
      /\ callSessions (step env st ev).2 = callSessions st
  end.
Proof.
  destruct ev as [b|i r now|sid|b|b|i r|b|b]; simpl.
  - destruct (api_call env b); split; reflexivity.
  - destruct r as [sid|message];
      destruct (inflight st !! i) as [[params b|? ? ?]|]; simpl; split; reflexivity.
  - split; reflexivity.
  - unfold voice_start. destruct (get st (CallSid b)) as [[l' s0]|]; simpl;
      rewrite ?length_alter; split; reflexivity.
  - unfold voice_gather. destruct (get st (CallSid b)) as [[l' s0]|]; simpl;
      rewrite ?length_alter; split; reflexivity.
  - destruct (inflight st !! i) as [[? ?|msgs l' baseUrl]|]; try (split; reflexivity).
    unfold voice_gather_resume. destruct r; simpl; rewrite length_alter; split; reflexivity.
  - unfold voice_no_input. destruct (get st (CallSid b)) as [[l' s0]|]; simpl;
      rewrite ?length_alter; split; reflexivity.
  - unfold voice_status. simpl. destruct (get st (CallSid b)) as [[l' s0]|]; simpl;
      rewrite ?length_alter; split; reflexivity.
Qed.

Lemma creates_new_session st ev sid s :
  creates st ev = Some (sid, s) -> exists b now, s = new_session b sid now.
Proof.
  destruct ev as [b|i [sid'|message] now|sid'|b|b|i r|b|b]; simpl; try discriminate.
  destruct (inflight st !! i) as [[params b|? ? ?]|]; try discriminate.
  intros [= <- <-]. eauto.
Qed.

(** Where a session object of the next state comes from. *)
Lemma step_object st ev l s' :
  heap (step env st ev).2 !! l = Some s' ->
  (exists s, heap st !! l = Some s /\ touches ev s s')
  \/ (exists sid, creates st ev = Some (sid, s') /\ l = length (heap st)).
Proof.
  intros H'. destruct (heap st !! l) as [s|] eqn:H.
  - left. destruct (step_touches env st ev l s H) as (s'' & H'' & Ht).
    exists s. split; [reflexivity|]. congruence.
  - right. apply lookup_ge_None in H. pose proof (step_creates st ev) as Hc.
    destruct (creates st ev) as [[sid s]|].
    + destruct Hc as [Hheap _]. rewrite Hheap in H'.
      rewrite lookup_app_r in H' by exact H.
      destruct (l - length (heap st))%nat as [|k] eqn:Hk; [|destruct k; discriminate].
      injection H' as <-. exists sid. split; [reflexivity | lia].
    + destruct Hc as [Hlen _]. apply lookup_lt_Some in H'. lia.
Qed.

(** What holds of a new session and is kept by every handler holds of every
    session object the process ever has. *)
Lemma reachable_sessions (P : Session -> Prop) :
  (forall b sid now, P (new_session b sid now)) ->
  (forall ev s s', touches ev s s' -> P s -> P s') ->
  forall st, reachable env st -> forall l s, heap st !! l = Some s -> P s.
Proof.
  intros Hnew Hkeep. apply (reachable_induction (fun st => forall l s, heap st !! l = Some s -> P s)).
  - intros l s H. destruct l; discriminate.
  - intros st ev _ IH l s' H'.
    destruct (step_object st ev l s' H') as [(s & H & Ht)|(sid & Hc & _)].
    + eapply Hkeep; eauto.
    + destruct (creates_new_session st ev sid s' Hc) as (b & now & ->). apply Hnew.
Qed.


(** The handlers, one by one, unfolded and split by their conditions. *)
Ltac by_handler Ht :=
  destruct Ht;
  unfold answered, heard, replied, delegate_failed, no_input, status_callback;
  repeat first [case_bool_decide | case_match]; simpl in *.

Lemma touches_logs ev s s' :
  touches ev s s' ->
  transcript s `prefix_of` transcript s' /\ claudeMessages s `prefix_of` claudeMessages s'.
Proof.
  intros Ht. by_handler Ht; split;
    first [reflexivity | apply prefix_app_r; reflexivity
          | apply prefix_app_r, prefix_app_r; reflexivity].
Qed.

(** Both logs of a session only grow at the end, whatever happens: what
    was recorded stays, in its place. *)
Theorem logs_append_only (st : State) (l : nat) (s : Session) (evs : list Event) :
  heap st !! l = Some s ->
  exists s', heap (run env st evs) !! l = Some s'
    /\ transcript s `prefix_of` transcript s'
    /\ claudeMessages s `prefix_of` claudeMessages s'.
Proof.
  intros H.
  refine (run_preserves env (fun _ => true)
            (fun s' => transcript s `prefix_of` transcript s'
                       /\ claudeMessages s `prefix_of` claudeMessages s')
            _ evs st l s _ H (conj (reflexivity _) (reflexivity _))).
  - intros ev x x' _ Ht [Hx Hy]. destruct (touches_logs ev x x' Ht) as [Hx' Hy'].
    split; etrans; eassumption.
  - apply Forall_forall. reflexivity.
Qed.

Lemma touches_identity ev s s' :
  touches ev s s' ->
  callSid s' = callSid s /\ userPreferences s' = userPreferences s
  /\ initialGreeting s' = initialGreeting s /\ createdAt s' = createdAt s.
Proof. intros Ht. by_handler Ht; repeat split. Qed.

(** What a session is about never changes: its call identifier, the
    preferences, the greeting and the creation time stay as stored, so every
    turn of the conversation gives the delegate the same instructions. *)
Theorem session_identity_fixed (st : State) (l : nat) (s : Session) (evs : list Event) :
  heap st !! l = Some s ->
  exists s', heap (run env st evs) !! l = Some s'
    /\ callSid s' = callSid s
    /\ userPreferences s' = userPreferences s
    /\ initialGreeting s' = initialGreeting s
    /\ createdAt s' = createdAt s
    /\ Prompt.createSystemPrompt (userPreferences s') (initialGreeting s')
       = Prompt.createSystemPrompt (userPreferences s) (initialGreeting s).
Proof.
  intros H.
  destruct (run_preserves env (fun _ => true)
              (fun s' => callSid s' = callSid s /\ userPreferences s' = userPreferences s
                         /\ initialGreeting s' = initialGreeting s
                         /\ createdAt s' = createdAt s)) with (evs := evs) (st := st) (l := l) (s := s)
    as (s' & H' & E1 & E2 & E3 & E4); auto.
  - intros ev x x' _ Ht (E1 & E2 & E3 & E4).
    destruct (touches_identity ev x x' Ht) as (F1 & F2 & F3 & F4).
    repeat split; congruence.
  - apply Forall_forall. reflexivity.
  - exists s'. rewrite E2, E3. auto 10.
Qed.


(** In every state the process gets into, a bound call identifier names a
    session object, and that object carries the identifier. *)
Lemma store_consistent st :
  reachable env st ->
  forall sid l, callSessions st !! sid = Some l ->
    exists s, heap st !! l = Some s /\ callSid s = sid.
Proof.
  revert st.
  apply (reachable_induction
           (fun st => forall sid l, callSessions st !! sid = Some l ->
                        exists s, heap st !! l = Some s /\ callSid s = sid)).
  - intros sid l H. cbn [initial callSessions] in H. rewrite lookup_empty in H. discriminate.
  - intros st ev _ IH sid l H'. pose proof (step_creates st ev) as Hc.
    destruct (creates st ev) as [[sid0 s0]|] eqn:Ec.
    + destruct Hc as [Hheap Hmap]. rewrite Hheap. rewrite Hmap in H'.
      destruct (decide (sid0 = sid)) as [->|Hne].
      * rewrite lookup_insert_eq in H'. injection H' as <-.
        exists s0. split; [apply list_lookup_middle; reflexivity|].
        destruct (creates_new_session st ev sid s0 Ec) as (b & now & ->). reflexivity.
      * rewrite lookup_insert_ne in H' by exact Hne.
        destruct (IH sid l H') as (s & H & Hs). exists s.
        split; [apply lookup_app_l_Some, H | exact Hs].
    + destruct Hc as [_ Hmap]. rewrite Hmap in H'.
      destruct (IH sid l H') as (s & H & Hs).
      destruct (step_touches env st ev l s H) as (s' & Hl & Ht).
      exists s'. split; [exact Hl|].
      destruct (touches_identity ev s s' Ht) as [-> _]. exact Hs.
Qed.

Lemma bound_stays_bound st evs sid :
  is_Some (callSessions st !! sid) -> is_Some (callSessions (run env st evs) !! sid).
Proof.
  revert st. induction evs as [|ev evs IH]; intros st H; [exact H|].
  rewrite run_cons. apply IH. pose proof (step_creates st ev) as Hc.
  destruct (creates st ev) as [[sid0 s0]|]; destruct Hc as [_ ->]; [|exact H].
  rewrite lookup_insert_is_Some. destruct (decide (sid0 = sid)); auto.
Qed.

(** A call identifier the process has once bound can be polled ever after:
    the answer is 200, never 404, and carries that identifier. *)
Theorem known_call_stays_pollable (st : State) (sid : jsstring) (evs : list Event) :
  reachable env st -> is_Some (callSessions st !! sid) ->
  exists status twilioStatus transcript outcome,
    get_call sid (run env st evs)
    = {| code := 200; body := PollJson sid status twilioStatus transcript outcome |}.
Proof.
  intros Hr Hsid.
  destruct (bound_stays_bound st evs sid Hsid) as [l Hl].
  destruct (store_consistent _ (reachable_run st evs Hr) sid l Hl) as (s & H & Hs).
  unfold get_call, get. rewrite Hl, H. simpl. rewrite Hs. eauto.
Qed.

Lemma not_terminal_in_progress : ~ terminal (lit "in-progress").
Proof.
  unfold terminal, TERMINAL_STATUSES. intros Hin.
  apply list_elem_of_In in Hin. vm_compute in Hin. intuition discriminate.
Qed.

Lemma not_terminal_calling : ~ terminal (lit "calling").
Proof.
  unfold terminal, TERMINAL_STATUSES. intros Hin.
  apply list_elem_of_In in Hin. vm_compute in Hin. intuition discriminate.
Qed.

Lemma terminal_all_statuses status : terminal status -> status ∈ all_statuses.
Proof. unfold terminal, all_statuses. intros H. do 2 right. exact H. Qed.

Lemma reachable_status st l s :
  reachable env st -> heap st !! l = Some s -> status s ∈ all_statuses.
Proof.
  intros Hr. revert l s. revert st Hr.
  apply (reachable_sessions (fun s => status s ∈ all_statuses)).
  - intros b sid now. left.
  - intros ev s s' Ht Hs.
    assert (forall x, terminal x -> x ∈ all_statuses) as Hterm
      by apply terminal_all_statuses.
    destruct Ht; unfold answered, heard, replied, delegate_failed, no_input, status_callback.
    + exact Hs.
    + right. left.
    + exact Hs.
    + destruct (Claude.isComplete _); [apply Hterm, terminal_completed | exact Hs].
    + apply Hterm. unfold terminal, TERMINAL_STATUSES. simpl status.
      rewrite !elem_of_cons. tauto.
    + destruct (bool_decide _); [|exact Hs].
      apply Hterm. unfold terminal, TERMINAL_STATUSES. simpl status.
      rewrite !elem_of_cons. tauto.
    + destruct (CallStatus b) as [c|]; [|exact Hs].
      destruct (bool_decide (c ∈ carrier_failures)) eqn:Hc; [|exact Hs].
      apply bool_decide_eq_true in Hc.
      destruct (bool_decide (status _ ≠ _)); [|exact Hs].
      assert (status (set_status (if bool_decide (c = lit "busy") then lit "busy" else c)
                        (set_twilioStatus (Some c) s)) = c) as E
        by (simpl; case_bool_decide; congruence).
      destruct (appointmentResult _); simpl in *; rewrite E;
        apply Hterm, terminal_carrier_failure, Hc.
Qed.

(** The outcome of a complete reply is there and has a member
    [confirmed]. *)
Lemma complete_reply_outcome text :
  Claude.isComplete (Claude.parseReply text) = true ->
  exists o, Claude.appointmentResult (Claude.parseReply text) = Some o
    /\ is_Some (o !! lit "confirmed").
Proof.
  destruct (JS.marker_match Claude.CONFIRMED text) as [p|] eqn:Hc.
  - rewrite (parseReply_confirmed _ _ Hc). simpl. intros _. eexists. split; [reflexivity|].
    destruct (Json.parse p).
    + apply lookup_union_is_Some. right. rewrite lookup_singleton_eq. eauto.
    + rewrite lookup_insert_eq. eauto.
  - destruct (JS.marker_match Claude.FAILED text) as [p|] eqn:Hf.
    + rewrite (parseReply_failed _ _ Hc Hf). simpl. intros _. eexists. split; [reflexivity|].
      destruct (Json.parse p).
      * apply lookup_union_is_Some. right. rewrite lookup_singleton_eq. eauto.
      * rewrite lookup_insert_eq. eauto.
    + rewrite (parseReply_plain _ Hc Hf). discriminate.
Qed.


Lemma has_confirmed_singleton (b : bool) (k : jsstring) (v : json) :
  is_Some (({[ lit "confirmed" := JBool b; k := v ]} : gmap jsstring json) !! lit "confirmed").
Proof. rewrite lookup_insert_eq. eauto. Qed.

Lemma terminal_named (x : jsstring) :
  x = lit "completed" \/ x = lit "failed" \/ x = lit "no-answer" \/ x = lit "busy"
  \/ x = lit "canceled" -> terminal x.
Proof. unfold terminal, TERMINAL_STATUSES. rewrite !elem_of_cons. tauto. Qed.

Lemma touches_outcome_ok ev s s' : touches ev s s' -> outcome_ok s -> outcome_ok s'.
Proof.
  intros Ht (Hterm & Hconf & Hcall). unfold outcome_ok.
  destruct Ht; unfold answered, heard, replied, delegate_failed, no_input, status_callback.
  - auto.
  - simpl. split; [intros H; destruct (not_terminal_in_progress H)|].
    split; [exact Hconf | discriminate].
  - simpl. auto.
  - destruct (Claude.isComplete (Claude.parseReply text)) eqn:Hc; simpl; [|auto].
    destruct (complete_reply_outcome text Hc) as (o & -> & Ho).
    split; [eauto|]. split; [intros ? [= <-]; exact Ho | discriminate].
  - simpl. split; [intros _; eexists; split; [reflexivity | apply has_confirmed_singleton]|].
    split; [intros ? [= <-]; apply has_confirmed_singleton | discriminate].
  - destruct (bool_decide _); simpl; [|auto].
    split; [intros _; eexists; split; [reflexivity | apply has_confirmed_singleton]|].
    split; [intros ? [= <-]; apply has_confirmed_singleton | discriminate].
  - destruct (CallStatus b) as [c|]; [|simpl; auto].
    destruct (bool_decide (c ∈ carrier_failures)) eqn:Hc; [|simpl; auto].
    apply bool_decide_eq_true in Hc.
    destruct (bool_decide (status _ ≠ _)); [|simpl; auto].
    set (s1 := set_status (if bool_decide (c = lit "busy") then lit "busy" else c)
                 (set_twilioStatus (Some c) s)).
    assert (status s1 = c) as E by (subst s1; simpl; case_bool_decide; congruence).
    assert (appointmentResult s1 = appointmentResult s) as Eo by reflexivity.
    assert (c <> lit "calling") as Hne.
    { intros ->. apply not_terminal_calling, terminal_carrier_failure, Hc. }
    destruct (appointmentResult s1) as [o|] eqn:Ho.
    + rewrite Ho, E. split; [intros _; exists o; split; [reflexivity|]|].
      * apply Hconf. congruence.
      * split; [intros o' [= <-]; apply Hconf; congruence | intros; contradiction].
    + cbn [status appointmentResult set_appointmentResult]. rewrite E.
      split; [intros _; eexists; split; [reflexivity | apply has_confirmed_singleton]|].
      split; [intros ? [= <-]; apply has_confirmed_singleton | intros; contradiction].
Qed.

Lemma reachable_outcome st l s :
  reachable env st -> heap st !! l = Some s -> outcome_ok s.
Proof.
  intros Hr. revert l s. revert st Hr. apply (reachable_sessions outcome_ok).
  - intros b sid now. split; [intros H; destruct (not_terminal_calling H)|].
    split; [discriminate | reflexivity].
  - apply touches_outcome_ok.
Qed.

(** What a poll can answer, in any state the process gets into: 404, or
    200 with a status that is one of the seven; a terminal status comes with
    an outcome that has a member [confirmed], and the status [calling] comes
    without an outcome. *)
Theorem poll_response_well_formed (st : State) (sid : jsstring) :
  reachable env st ->
  get_call sid st = {| code := 404; body := ErrorJson (lit "Call not found") |}
  \/ exists status twilioStatus transcript outcome,
       get_call sid st
       = {| code := 200; body := PollJson sid status twilioStatus transcript outcome |}
       /\ status ∈ all_statuses
       /\ (terminal status ->
           exists o, outcome = Some o /\ is_Some (o !! lit "confirmed"))
       /\ (status = lit "calling" -> outcome = None).
Proof.
  intros Hr. unfold get_call.
  destruct (get st (Some sid)) as [[l s]|] eqn:Hget; [right | left; reflexivity].
  destruct (get_Some st _ l s Hget) as (H & sid' & [= <-] & Hl).
  destruct (store_consistent st Hr sid l Hl) as (s0 & H0 & Hs). rewrite H in H0.
  injection H0 as <-. rewrite Hs.
  destruct (reachable_outcome st l s Hr H) as (Hterm & _ & Hcall).
  exists (status s), (twilioStatus s), (transcript s), (appointmentResult s).
  split; [reflexivity|]. split; [exact (reachable_status st l s Hr H)|]. auto.
Qed.

(** The transcript of every session starts with the greeting, and holds
    the turns of the delegate's history in their order. *)
Theorem transcript_holds_history (st : State) (l : nat) (s : Session) :
  reachable env st -> heap st !! l = Some s ->
  exists rest,
    transcript s = assistant_turn (initialGreeting s) :: rest
    /\ claudeMessages s `sublist_of` rest.
Proof.
  intros Hr. revert l s. revert st Hr.
  apply (reachable_sessions
           (fun s => exists rest, transcript s = assistant_turn (initialGreeting s) :: rest
                                  /\ claudeMessages s `sublist_of` rest)).
  - intros b sid now. exists []. split; reflexivity.
  - intros ev s s' Ht (rest & Et & Hsub).
    assert (forall x, claudeMessages s ++ [x] `sublist_of` rest ++ [x]) as Hboth
      by (intros x; apply sublist_app; [exact Hsub | reflexivity]).
    by_handler Ht; rewrite ?Et; simpl;
      first [ exists rest; split; [reflexivity | exact Hsub]
            | eexists; split; [reflexivity|];
              first [ apply Hboth
                    | apply sublist_app; [apply Hboth | reflexivity]
                    | apply sublist_inserts_r, Hsub ] ].
Qed.

(** An event changes no session object but the one it is about. *)
Theorem other_sessions_untouched (st : State) (ev : Event) (l : nat) (s : Session) :
  heap st !! l = Some s -> target st ev <> Some l ->
  heap (step env st ev).2 !! l = Some s.
Proof.
  intros H Hnot.
  assert (forall l' f, l' <> l -> heap (mutate l' f st) !! l = Some s) as Hmut.
  { intros l' f Hne. rewrite (heap_mutate st l' f l s H), decide_False by exact Hne.
    reflexivity. }
  destruct ev as [b|i r now|sid|b|b|i r|b|b]; simpl in *.
  - destruct (api_call env b); exact H.
  - destruct (inflight st !! i) as [[params b|? ? ?]|]; try exact H.
    destruct r as [sid|message]; simpl; [apply lookup_app_l_Some, H | exact H].
  - exact H.
  - unfold voice_start. destruct (get st (CallSid b)) as [[l' s0]|]; simpl in *; [|exact H].
    apply Hmut. congruence.
  - unfold voice_gather. destruct (get st (CallSid b)) as [[l' s0]|]; simpl in *; [|exact H].
    apply (Hmut l'). congruence.
  - destruct (inflight st !! i) as [[? ?|msgs l' baseUrl]|]; try exact H.
    unfold voice_gather_resume. destruct r as [|text]; simpl; apply (Hmut l'); congruence.
  - unfold voice_no_input. destruct (get st (CallSid b)) as [[l' s0]|]; simpl in *; [|exact H].
    apply (Hmut l'). congruence.
  - unfold voice_status. simpl. destruct (get st (CallSid b)) as [[l' s0]|]; simpl in *;
      [|exact H].
    apply (Hmut l'). congruence.
Qed.




Lemma touches_quiet ev s s' :
  quiet ev = true -> touches ev s s' ->
  status s' = status s /\ appointmentResult s' = appointmentResult s
  /\ transcript s' = transcript s /\ claudeMessages s' = claudeMessages s.
Proof.
  intros Hq Ht. destruct Ht; try discriminate Hq; [auto|].
  simpl in Hq. apply negb_true_iff in Hq. unfold status_callback.
  destruct (CallStatus b) as [c|]; [|auto]. simpl in Hq. rewrite Hq. auto.
Qed.

(** A carrier callback always records the carrier's status.  Callbacks
    that report no failure ([initiated], [ringing], [in-progress],
    [completed], or no status at all) do nothing else: together with polls
    and new calls they leave the status, the outcome and both logs of every
    session as they are, so the carrier's [completed] does not end a
    session. *)
Theorem carrier_progress_only_recorded (st : State) (l : nat) (s : Session) :
  heap st !! l = Some s ->
  (forall b, get st (CallSid b) = Some (l, s) ->
     exists s', heap (step env st (PostVoiceStatus b)).2 !! l = Some s'
       /\ twilioStatus s' = CallStatus b)
  /\ (forall evs, Forall (fun ev => quiet ev = true) evs ->
        exists s', heap (run env st evs) !! l = Some s'
          /\ status s' = status s /\ appointmentResult s' = appointmentResult s
          /\ transcript s' = transcript s /\ claudeMessages s' = claudeMessages s).
Proof.
  intros H. split.
  - intros b Hget. rewrite (step_voice_status env st b l s Hget). cbn [snd].
    rewrite (heap_mutate_same st l _ s H). eexists. split; [reflexivity|].
    unfold status_callback. repeat case_match; reflexivity.
  - intros evs Hall.
    refine (run_preserves env quiet
              (fun s' => status s' = status s /\ appointmentResult s' = appointmentResult s
                         /\ transcript s' = transcript s
                         /\ claudeMessages s' = claudeMessages s)
              _ evs st l s Hall H _); [|auto].
    intros ev x x' Hq Ht (E1 & E2 & E3 & E4).
    destruct (touches_quiet ev x x' Hq Ht) as (F1 & F2 & F3 & F4).
    repeat split; congruence.
Qed.

(** Sessions come from created calls only.  A call that settles as created
    for a waiting handler adds one session object, in the status [calling],
    and binds its identifier to it, leaving the other identifiers alone; any
    other event leaves the bindings and the number of session objects as they
    are. *)
Theorem sessions_come_from_created_calls (st : State) (ev : Event) :
  match creates st ev with
  | Some (sid, s) =>
      get (step env st ev).2 (Some sid) = Some (length (heap st), s)
      /\ status s = lit "calling"
      /\ length (heap (step env st ev).2) = S (length (heap st))
      /\ forall sid', sid' <> sid ->
           callSessions (step env st ev).2 !! sid' = callSessions st !! sid'
  | None =>
      callSessions (step env st ev).2 = callSessions st
      /\ length (heap (step env st ev).2) = length (heap st)
  end.
Proof.
  pose proof (step_creates st ev) as Hc.
  destruct (creates st ev) as [[sid s]|] eqn:E; [|tauto].
  destruct Hc as [Hheap Hmap]. unfold get. rewrite Hmap, Hheap, lookup_insert_eq.
  rewrite list_lookup_middle by reflexivity.
  destruct (creates_new_session st ev sid s E) as (b & now & ->).
  split; [reflexivity|]. split; [reflexivity|]. split.
  - rewrite length_app. simpl. lia.
  - intros sid' Hne. apply lookup_insert_ne. congruence.
Qed.

(** Every status a session can have has a label of its own in
    [statusLabel], so neither the fallback nor an inherited property is ever
    shown; and the status dot pulses exactly as long as the page goes on
    polling. *)
Theorem every_status_has_a_label (st : State) (l : nat) (s : Session) :
  reachable env st -> heap st !! l = Some s ->
  (exists label,
     Client.statusLabel (status s) (twilioStatus s) = Client.Text label
     /\ (status s, label) ∈ Client.status_labels)
  /\ Client.isActive (status s) = negb (Client.stopsPolling (status s)).
Proof.
  intros Hr H. pose proof (reachable_status st l s Hr H) as Hs.
  unfold all_statuses, TERMINAL_STATUSES in Hs. rewrite !elem_of_cons, elem_of_nil in Hs.
  destruct Hs as [->|[->|[->|[->|[->|[->|[->|[]]]]]]]];
    (split; [eexists; split; [reflexivity|] | reflexivity]);
    unfold Client.status_labels; rewrite !elem_of_cons; tauto.
Qed.

End Process.


(** *** The theorems at sample calls *)

Lemma reachable_answered_call : reachable env0 answered_call.
Proof. eexists. reflexivity. Qed.

Lemma reachable_completed_call : reachable env0 completed_call.
Proof. apply reachable_run, reachable_answered_call. Qed.

Lemma logs_append_only_witness :
  exists s s',
    heap answered_call !! 0%nat = Some s
    /\ heap (run env0 answered_call confirm) !! 0%nat = Some s'
    /\ transcript s `prefix_of` transcript s'
    /\ claudeMessages s `prefix_of` claudeMessages s'.
Proof.
  assert (exists s, heap answered_call !! 0%nat = Some s) as [s H]
    by (eexists; vm_compute; reflexivity).
  destruct (logs_append_only env0 answered_call 0 s confirm H) as (s' & H' & Ht & Hc).
  exists s, s'. auto.
Defined.

Lemma session_identity_fixed_witness :
  exists s s',
    heap answered_call !! 0%nat = Some s
    /\ heap (run env0 answered_call confirm) !! 0%nat = Some s'
    /\ callSid s' = lit "CA1"
    /\ Prompt.createSystemPrompt (userPreferences s') (initialGreeting s')
       = Prompt.createSystemPrompt (userPreferences s) (initialGreeting s).
Proof.
  assert (exists s, heap answered_call !! 0%nat = Some s /\ callSid s = lit "CA1")
    as (s & H & Hs) by (eexists; split; vm_compute; reflexivity).
  destruct (session_identity_fixed env0 answered_call 0 s confirm H)
    as (s' & H' & E1 & _ & _ & _ & Ep).
  exists s, s'. rewrite E1. auto.
Defined.

Lemma known_call_stays_pollable_witness :
  exists status twilioStatus transcript outcome,
    get_call (lit "CA1") (run env0 answered_call confirm)
    = {| code := 200; body := PollJson (lit "CA1") status twilioStatus transcript outcome |}.
Proof.
  apply known_call_stays_pollable; [apply reachable_answered_call|].
  vm_compute. eauto.
Defined.

Lemma poll_response_well_formed_witness :
  exists status twilioStatus transcript outcome,
    get_call (lit "CA1") completed_call
    = {| code := 200; body := PollJson (lit "CA1") status twilioStatus transcript outcome |}
    /\ status ∈ all_statuses
    /\ (terminal status -> exists o, outcome = Some o /\ is_Some (o !! lit "confirmed"))
    /\ (status = lit "calling" -> outcome = None).
Proof.
  destruct (poll_response_well_formed env0 completed_call (lit "CA1") reachable_completed_call)
    as [H404|H]; [|exact H].
  vm_compute in H404. discriminate H404.
Defined.

Lemma transcript_holds_history_witness :
  exists s rest,
    heap completed_call !! 0%nat = Some s
    /\ transcript s = assistant_turn (initialGreeting s) :: rest
    /\ claudeMessages s `sublist_of` rest.
Proof.
  assert (exists s, heap completed_call !! 0%nat = Some s) as [s H]
    by (eexists; vm_compute; reflexivity).
  destruct (transcript_holds_history env0 completed_call 0 s reachable_completed_call H)
    as (rest & Et & Hsub).
  exists s, rest. auto.
Defined.

Lemma other_sessions_untouched_witness :
  exists s,
    heap two_calls !! 0%nat = Some s
    /\ heap (step env0 two_calls (PostVoiceNoInput (webhook "CA2"))).2 !! 0%nat = Some s.
Proof.
  assert (exists s, heap two_calls !! 0%nat = Some s) as [s H]
    by (eexists; vm_compute; reflexivity).
  exists s. split; [exact H|].
  apply other_sessions_untouched; [exact H|]. vm_compute. discriminate.
Defined.

Lemma carrier_progress_only_recorded_witness :
  exists s s',
    heap answered_call !! 0%nat = Some s
    /\ heap (run env0 answered_call progress) !! 0%nat = Some s'
    /\ status s' = lit "in-progress"
    /\ appointmentResult s' = None.
Proof.
  assert (exists s, heap answered_call !! 0%nat = Some s /\ status s = lit "in-progress"
                    /\ appointmentResult s = None)
    as (s & H & Hs & Ho) by (eexists; repeat split; vm_compute; reflexivity).
  destruct (carrier_progress_only_recorded env0 answered_call 0 s H) as [_ Hquiet].
  destruct (Hquiet progress) as (s' & H' & E1 & E2 & _); [repeat constructor|].
  exists s, s'. rewrite E1, E2. auto.
Defined.

Lemma sessions_come_from_created_calls_witness :
  get (step env0 (run env0 initial [PostApiCall alex])
         (CarrierSettles 0 (CallCreated (lit "CA1")) 7)).2 (Some (lit "CA1"))
  = Some (0%nat, new_session alex (lit "CA1") 7)
  /\ callSessions (step env0 answered_call (PostVoiceNoInput (webhook "CA1"))).2
     = callSessions answered_call.
Proof.
  split.
  - pose proof (sessions_come_from_created_calls env0 (run env0 initial [PostApiCall alex])
                  (CarrierSettles 0 (CallCreated (lit "CA1")) 7)) as H.
    change (creates _ _) with (Some (lit "CA1", new_session alex (lit "CA1") 7)) in H.
    exact (proj1 H).
  - pose proof (sessions_come_from_created_calls env0 answered_call
                  (PostVoiceNoInput (webhook "CA1"))) as H.
    exact (proj1 H).
Defined.

Lemma every_status_has_a_label_witness :
  exists s label,
    heap completed_call !! 0%nat = Some s
    /\ Client.statusLabel (status s) (twilioStatus s) = Client.Text label
    /\ Client.isActive (status s) = negb (Client.stopsPolling (status s)).
Proof.
  assert (exists s, heap completed_call !! 0%nat = Some s) as [s H]
    by (eexists; vm_compute; reflexivity).
  destruct (every_status_has_a_label env0 completed_call 0 s reachable_completed_call H)
    as [(label & Hl & _) Hp].
  exists s, label. auto.
Defined.

End ProcessProps.
